(** * AI CAD Copilot: response recovery and scene-editor history

    A shallow embedding of two parts of the application:

    - the service module (imported as [./services/geminiService]; in this
      tree the second part of [src/components/ChatPanel.tsx]), whose
      function [sendMessageToGemini] turns the raw text of a model answer
      into a response envelope through markup stripping, textual syntax
      repair, truncation repair and a fallback;
    - [App] (the second part of [src/types.ts]) and [Viewer3D] (in
      [src/components/UserDashboard.tsx]), the handlers that own the shape
      list, the undo and redo stacks and the selection.

    JavaScript strings are sequences of UTF-16 code units, so a string is a
    [list N].  The built-ins the source calls ([String.prototype.replace]
    with a regular expression, [trim], [match], [lastIndexOf], [substring],
    [JSON.parse]) are written out as executable functions. *)

From Stdlib Require Import ZArith NArith String Ascii Lia.
From stdpp Require Import base list gmap.

Set Warnings "-register-all".
Local Open Scope N_scope.

(** ** Strings *)

Module JsString.

Abbreviation jstr := (list N) (only parsing).

(** The code units of an ASCII literal. *)
Definition js (s : string) : jstr :=
  map N_of_ascii (list_ascii_of_string s).

Definition jstr_eqb (a b : jstr) : bool := bool_decide (a = b).

(** WhiteSpace and LineTerminator of ECMAScript: what [trim] removes and
    what the class [\s] matches. *)
Definition is_js_space (c : N) : bool :=
  (c =? 9) || (c =? 10) || (c =? 11) || (c =? 12) || (c =? 13) || (c =? 32)
  || (c =? 160) || (c =? 5760) || ((8192 <=? c) && (c <=? 8202))
  || (c =? 8232) || (c =? 8233) || (c =? 8239) || (c =? 8287)
  || (c =? 12288) || (c =? 65279).

Fixpoint trimStart (s : jstr) : jstr :=
  match s with
  | c :: s' => if is_js_space c then trimStart s' else s
  | [] => []
  end.

Definition trimEnd (s : jstr) : jstr := rev (trimStart (rev s)).

(** [String.prototype.trim] *)
Definition trim (s : jstr) : jstr := trimEnd (trimStart s).

(** [s.lastIndexOf(c)] for a one-unit search string; [-1] when absent. *)
Fixpoint lastIndexOf_from (c : N) (s : jstr) (i : Z) (found : Z) : Z :=
  match s with
  | [] => found
  | d :: s' => lastIndexOf_from c s' (i + 1)%Z (if d =? c then i else found)
  end.

Definition lastIndexOf (c : N) (s : jstr) : Z :=
  lastIndexOf_from c s 0%Z (-1)%Z.

(** [s.substring(0, n)]: a negative [n] counts as 0, one past the end as
    the length. *)
Definition substring0 (s : jstr) (n : Z) : jstr := take (Z.to_nat n) s.

(** [s.startsWith(t)] *)
Fixpoint is_prefix (t s : jstr) : bool :=
  match t, s with
  | [], _ => true
  | a :: t', b :: s' => (a =? b) && is_prefix t' s'
  | _ :: _, [] => false
  end.

(** [s.includes(t)] *)
Fixpoint includes (t s : jstr) : bool :=
  is_prefix t s ||
  match s with
  | [] => false
  | _ :: s' => includes t s'
  end.

End JsString.
Export JsString.

(** ** Exceptions *)

Module Exn.

(** A thrown value: the sources only ever read [message]. *)
Inductive exn : Type :=
| Error (message : jstr)
| SyntaxError (message : jstr)
| TypeError (message : jstr).

Definition message (e : exn) : jstr :=
  match e with
  | Error m | SyntaxError m | TypeError m => m
  end.

Inductive result (A : Type) : Type :=
| Ok (a : A)
| Throw (e : exn).
Arguments Ok {A} a.
Arguments Throw {A} e.

Definition bind {A B} (m : result A) (k : A -> result B) : result B :=
  match m with
  | Ok a => k a
  | Throw e => Throw e
  end.

(** [try { m } catch (e) { h e }] *)
Definition try_catch {A} (m : result A) (h : exn -> result A) : result A :=
  match m with
  | Ok a => Ok a
  | Throw e => h e
  end.

Definition returns {A} (m : result A) : Prop := exists a, m = Ok a.
Definition throws {A} (m : result A) : Prop := exists e, m = Throw e.

End Exn.
Export Exn.

Declare Scope result_scope.
Delimit Scope result_scope with result.
Notation "'let*' x ':=' m 'in' k" := (Exn.bind m (fun x => k))
  (at level 10, x name, m at level 100, k at level 200) : result_scope.

(** ** Regular expressions

    The fragment of ECMAScript regular expressions that the service uses:
    literal characters, character classes, sequence, a greedy star and a
    lazy plus over a class, capture groups and positive lookahead.  The
    matcher is the backtracking one of the language definition, in
    continuation-passing style: [k] is what remains to be matched. *)

Module RegExp.

Inductive regex : Type :=
| RChar (c : N)
| RClass (p : N -> bool)
| RSeq (r1 r2 : regex)
| RStar (p : N -> bool)           (* [p*], greedy *)
| RPlusLazy (p : N -> bool)       (* [p+?] *)
| RGroup (n : nat) (r : regex)    (* the [n]-th parenthesis *)
| RLookahead (r : regex).         (* [(?=r)] *)

Fixpoint RString (s : jstr) : regex :=
  match s with
  | [] => RStar (fun _ => false)
  | [c] => RChar c
  | c :: s' => RSeq (RChar c) (RString s')
  end.

(** Canonicalize of the flag [i], for the comparison with an ASCII
    pattern character: an ASCII letter goes to upper case, and a code unit
    from 128 on never canonicalizes to an ASCII one, so it is kept. *)
Definition canonicalize (c : N) : N :=
  if (97 <=? c) && (c <=? 122) then c - 32 else c.

Definition char_matches (icase : bool) (pat c : N) : bool :=
  if icase then canonicalize pat =? canonicalize c else pat =? c.

Definition captures : Type := list (nat * jstr).

Fixpoint capture (n : nat) (caps : captures) : option jstr :=
  match caps with
  | [] => None
  | (m, s) :: caps' => if Nat.eqb m n then Some s else capture n caps'
  end.

Section Matcher.
Context {R : Type}.

Fixpoint star_greedy (p : N -> bool) (s : jstr)
         (k : jstr -> option R) : option R :=
  match s with
  | c :: s' =>
      if p c
      then match star_greedy p s' k with
           | Some r => Some r
           | None => k s
           end
      else k s
  | [] => k s
  end.

Fixpoint star_lazy (p : N -> bool) (s : jstr)
         (k : jstr -> option R) : option R :=
  match k s with
  | Some r => Some r
  | None =>
      match s with
      | c :: s' => if p c then star_lazy p s' k else None
      | [] => None
      end
  end.
End Matcher.

Fixpoint rmatch (icase : bool) (r : regex) {R : Type} (s : jstr)
         (caps : captures) (k : jstr -> captures -> option R) : option R :=
  match r with
  | RChar c =>
      match s with
      | d :: s' => if char_matches icase c d then k s' caps else None
      | [] => None
      end
  | RClass p =>
      match s with
      | d :: s' => if p d then k s' caps else None
      | [] => None
      end
  | RSeq r1 r2 =>
      rmatch icase r1 s caps (fun s1 caps1 => rmatch icase r2 s1 caps1 k)
  | RStar p => star_greedy p s (fun s' => k s' caps)
  | RPlusLazy p =>
      match s with
      | d :: s' => if p d then star_lazy p s' (fun s'' => k s'' caps) else None
      | [] => None
      end
  | RGroup n r1 =>
      rmatch icase r1 s caps
        (fun s' caps' =>
           k s' ((n, take (length s - length s')%nat s) :: caps'))
  | RLookahead r1 =>
      match rmatch icase r1 s caps (fun _ caps' => Some caps') with
      | Some caps' => k s caps'
      | None => None
      end
  end.

(** A match attempt at the start of [s]: the number of code units matched
    and the captures. *)
Definition exec_here (icase : bool) (r : regex) (s : jstr)
  : option (nat * captures) :=
  rmatch icase r s [] (fun s' caps => Some ((length s - length s')%nat, caps)).

(** Replacement patterns: literal text and [$n]. *)
Inductive template_item : Type :=
| TText (t : jstr)
| TGroup (n : nat).

Definition expand_item (caps : captures) (i : template_item) : jstr :=
  match i with
  | TText t => t
  | TGroup n => default [] (capture n caps)
  end.

Definition expand (tpl : list template_item) (caps : captures) : jstr :=
  concat (map (expand_item caps) tpl).

(** [s.replace(/r/g, tpl)]: matches are sought from left to right, each
    after the end of the previous one; [skip] counts the code units of
    [s] that the previous match has already consumed.  After an empty
    match the search resumes one unit further, as [lastIndex] does. *)
Fixpoint replace_from (icase : bool) (r : regex) (tpl : list template_item)
         (skip : nat) (s : jstr) : jstr :=
  match skip with
  | S skip' =>
      match s with
      | _ :: s' => replace_from icase r tpl skip' s'
      | [] => []
      end
  | O =>
      match exec_here icase r s with
      | Some (len, caps) =>
          expand tpl caps ++
          match s with
          | c :: s' =>
              match len with
              | O => c :: replace_from icase r tpl O s'
              | S len' => replace_from icase r tpl len' s'
              end
          | [] => []
          end
      | None =>
          match s with
          | c :: s' => c :: replace_from icase r tpl O s'
          | [] => []
          end
      end
  end.

Definition replace_all (icase : bool) (r : regex)
           (tpl : list template_item) (s : jstr) : jstr :=
  replace_from icase r tpl O s.

(** [s.match(/r/)] without the flag [g]: the index of the leftmost match
    and the matched text. *)
Fixpoint match_from (r : regex) (s : jstr) (i : Z) : option (Z * jstr) :=
  match exec_here false r s with
  | Some (len, _) => Some (i, take len s)
  | None =>
      match s with
      | _ :: s' => match_from r s' (i + 1)%Z
      | [] => None
      end
  end.

Definition match_first (r : regex) (s : jstr) : option (Z * jstr) :=
  match_from r s 0%Z.

End RegExp.
Export RegExp.

(** ** JSON values and [JSON.parse] *)

Module Json.

(** The decimal a number token denotes, [(-1)^negative * mantissa *
    10^exponent].  The rounding to binary64 is not applied; [is_zero]
    decides exactly whether the rounded number is zero. *)
Record number : Type := Number {
  negative : bool;
  mantissa : N;
  exponent : Z
}.

Inductive json : Type :=
| JNull
| JBool (b : bool)
| JNumber (n : number)
| JString (s : jstr)
| JArray (items : list json)
| JObject (props : list (jstr * json)).

(** [o[k]] on own properties; [None] is [undefined]. *)
Fixpoint get_prop (props : list (jstr * json)) (k : jstr) : option json :=
  match props with
  | [] => None
  | (k', v) :: props' => if jstr_eqb k' k then Some v else get_prop props' k
  end.

(** [o[k] = v]: an existing property keeps its place. *)
Fixpoint set_prop (props : list (jstr * json)) (k : jstr) (v : json)
  : list (jstr * json) :=
  match props with
  | [] => [(k, v)]
  | (k', v') :: props' =>
      if jstr_eqb k' k then (k, v) :: props'
      else (k', v') :: set_prop props' k v
  end.

(** A decimal rounds to zero (to nearest, ties to even) exactly when its
    magnitude is at most [2^-1075], half the least subnormal. *)
Definition is_zero (n : number) : bool :=
  (mantissa n =? 0) ||
  ((exponent n <? 0)%Z &&
   (mantissa n * 2 ^ 1075 <=? 10 ^ Z.to_N (- exponent n))).

(** ToBoolean of a property read. *)
Definition truthy (v : option json) : bool :=
  match v with
  | None => false
  | Some JNull => false
  | Some (JBool b) => b
  | Some (JNumber n) => negb (is_zero n)
  | Some (JString s) => negb (bool_decide (s = []))
  | Some (JArray _) => true
  | Some (JObject _) => true
  end.

(** *** The parser

    [JSON.parse] accepts exactly the JSON grammar (no comments, no
    trailing commas, no leading zeros) and throws a SyntaxError on
    anything else.  It is written as a pushdown automaton that reads one
    code unit at a time, so it is total without any fuel. *)

Definition is_json_space (c : N) : bool :=
  (c =? 32) || (c =? 9) || (c =? 10) || (c =? 13).

Definition is_digit (c : N) : bool := (48 <=? c) && (c <=? 57).

Definition hex_value (c : N) : option N :=
  if is_digit c then Some (c - 48)
  else if (97 <=? c) && (c <=? 102) then Some (c - 87)
  else if (65 <=? c) && (c <=? 70) then Some (c - 55)
  else None.

(** The containers that are open around the current position. *)
Inductive frame : Type :=
| FArray (items : list json)                      (* items read, last first *)
| FObject (props : list (jstr * json))            (* between members *)
| FMember (props : list (jstr * json)) (key : jstr). (* after a member's name *)

Inductive numstate : Type :=
| NMinus | NZero | NInt | NDot | NFrac | NExp | NExpSign | NExpDigits.

Record numacc : Type := NumAcc {
  acc_negative : bool;
  acc_mantissa : N;
  acc_fraction : N;      (* digits after the point *)
  acc_exp_negative : bool;
  acc_exp : N
}.

Inductive mode : Type :=
| MValue (first : bool)    (* a value is due; [first]: just after '[' *)
| MKey (first : bool)      (* a member name is due; [first]: just after '{' *)
| MColon
| MNext                    (* after an element or member *)
| MString (key : bool) (acc : jstr)               (* [acc] last first *)
| MEscape (key : bool) (acc : jstr)
| MUnicode (key : bool) (acc : jstr) (hex : list N)
| MNumber (st : numstate) (a : numacc)
| MLiteral (rest : jstr) (v : json).

Inductive pstate : Type :=
| PRun (stack : list frame) (m : mode)
| PDone (v : json)         (* the top-level value is complete *)
| PFail.

Definition number_of (a : numacc) : number :=
  {| negative := acc_negative a;
     mantissa := acc_mantissa a;
     exponent :=
       ((if acc_exp_negative a then - Z.of_N (acc_exp a) else Z.of_N (acc_exp a))
        - Z.of_N (acc_fraction a))%Z |}.

(** A complete value goes into the innermost open container. *)
Definition push_value (stack : list frame) (v : json) : pstate :=
  match stack with
  | [] => PDone v
  | FArray items :: st => PRun (FArray (v :: items) :: st) MNext
  | FMember props k :: st => PRun (FObject (set_prop props k v) :: st) MNext
  | FObject _ :: _ => PFail
  end.

Definition close_array (stack : list frame) : pstate :=
  match stack with
  | FArray items :: st => push_value st (JArray (rev items))
  | _ => PFail
  end.

Definition close_object (stack : list frame) : pstate :=
  match stack with
  | FObject props :: st => push_value st (JObject props)
  | _ => PFail
  end.

Definition new_acc (neg : bool) (m : N) : numacc :=
  {| acc_negative := neg; acc_mantissa := m; acc_fraction := 0;
     acc_exp_negative := false; acc_exp := 0 |}.

Definition start_value (stack : list frame) (first : bool) (c : N) : pstate :=
  if c =? 123 then PRun (FObject [] :: stack) (MKey true)            (* { *)
  else if c =? 91 then PRun (FArray [] :: stack) (MValue true)       (* [ *)
  else if (c =? 93) && first then close_array stack                  (* ] *)
  else if c =? 34 then PRun stack (MString false [])                 (* quote *)
  else if c =? 45 then PRun stack (MNumber NMinus (new_acc true 0))  (* - *)
  else if c =? 48 then PRun stack (MNumber NZero (new_acc false 0))
  else if is_digit c then PRun stack (MNumber NInt (new_acc false (c - 48)))
  else if c =? 116 then PRun stack (MLiteral (js "rue") (JBool true))
  else if c =? 102 then PRun stack (MLiteral (js "alse") (JBool false))
  else if c =? 110 then PRun stack (MLiteral (js "ull") JNull)
  else PFail.

(** One code unit between tokens. *)
Definition step_structure (stack : list frame) (m : mode) (c : N) : pstate :=
  if is_json_space c then PRun stack m
  else
    match m with
    | MValue first => start_value stack first c
    | MKey first =>
        if c =? 34 then PRun stack (MString true [])
        else if (c =? 125) && first then close_object stack          (* } *)
        else PFail
    | MColon =>
        if c =? 58 then                                              (* : *)
          match stack with
          | FMember _ _ :: _ => PRun stack (MValue false)
          | _ => PFail
          end
        else PFail
    | MNext =>
        if c =? 44 then                                              (* , *)
          match stack with
          | FArray _ :: _ => PRun stack (MValue false)
          | FObject _ :: _ => PRun stack (MKey false)
          | _ => PFail
          end
        else if c =? 93 then close_array stack
        else if c =? 125 then close_object stack
        else PFail
    | _ => PFail
    end.

Definition after_done (v : json) (c : N) : pstate :=
  if is_json_space c then PDone v else PFail.

(** The end of a string: a member name or a value. *)
Definition end_string (stack : list frame) (key : bool) (acc : jstr) : pstate :=
  if key then
    match stack with
    | FObject props :: st => PRun (FMember props (rev acc) :: st) MColon
    | _ => PFail
    end
  else push_value stack (JString (rev acc)).

Definition unescape (c : N) : option N :=
  if c =? 34 then Some 34            (* quote *)
  else if c =? 92 then Some 92       (* backslash *)
  else if c =? 47 then Some 47       (* slash *)
  else if c =? 98 then Some 8        (* b: backspace *)
  else if c =? 102 then Some 12      (* f: form feed *)
  else if c =? 110 then Some 10      (* n: line feed *)
  else if c =? 114 then Some 13      (* r: carriage return *)
  else if c =? 116 then Some 9       (* t: tab *)
  else None.

Definition hex4 (hex : list N) : N :=
  fold_left (fun n d => 16 * n + d) hex 0.

Definition add_digit (a : numacc) (c : N) (fraction : bool) : numacc :=
  {| acc_negative := acc_negative a;
     acc_mantissa := 10 * acc_mantissa a + (c - 48);
     acc_fraction := if fraction then acc_fraction a + 1 else acc_fraction a;
     acc_exp_negative := acc_exp_negative a;
     acc_exp := acc_exp a |}.

Definition add_exp_digit (a : numacc) (c : N) : numacc :=
  {| acc_negative := acc_negative a;
     acc_mantissa := acc_mantissa a;
     acc_fraction := acc_fraction a;
     acc_exp_negative := acc_exp_negative a;
     acc_exp := 10 * acc_exp a + (c - 48) |}.

Definition exp_negative (a : numacc) : numacc :=
  {| acc_negative := acc_negative a;
     acc_mantissa := acc_mantissa a;
     acc_fraction := acc_fraction a;
     acc_exp_negative := true;
     acc_exp := acc_exp a |}.

(** A number token may end in these states. *)
Definition num_complete (st : numstate) : bool :=
  match st with
  | NZero | NInt | NFrac | NExpDigits => true
  | _ => false
  end.

(** The next code unit of a number token continues the token, ends it
    (the unit then belongs to what follows) or is an error. *)
Inductive numstep : Type :=
| NContinue (st : numstate) (a : numacc)
| NEnd
| NBad.

Definition step_number (st : numstate) (a : numacc) (c : N) : numstep :=
  let is_e := (c =? 101) || (c =? 69) in
  match st with
  | NMinus =>
      if c =? 48 then NContinue NZero a
      else if is_digit c then NContinue NInt (add_digit a c false)
      else NBad
  | NZero =>
      if c =? 46 then NContinue NDot a
      else if is_e then NContinue NExp a
      else NEnd
  | NInt =>
      if is_digit c then NContinue NInt (add_digit a c false)
      else if c =? 46 then NContinue NDot a
      else if is_e then NContinue NExp a
      else NEnd
  | NDot =>
      if is_digit c then NContinue NFrac (add_digit a c true)
      else NBad
  | NFrac =>
      if is_digit c then NContinue NFrac (add_digit a c true)
      else if is_e then NContinue NExp a
      else NEnd
  | NExp =>
      if c =? 43 then NContinue NExpSign a
      else if c =? 45 then NContinue NExpSign (exp_negative a)
      else if is_digit c then NContinue NExpDigits (add_exp_digit a c)
      else NBad
  | NExpSign =>
      if is_digit c then NContinue NExpDigits (add_exp_digit a c)
      else NBad
  | NExpDigits =>
      if is_digit c then NContinue NExpDigits (add_exp_digit a c)
      else NEnd
  end.

Definition step (p : pstate) (c : N) : pstate :=
  match p with
  | PFail => PFail
  | PDone v => after_done v c
  | PRun stack m =>
      match m with
      | MString key acc =>
          if c =? 34 then end_string stack key acc
          else if c =? 92 then PRun stack (MEscape key acc)
          else if c <? 32 then PFail
          else PRun stack (MString key (c :: acc))
      | MEscape key acc =>
          if c =? 117 then PRun stack (MUnicode key acc [])          (* u *)
          else
            match unescape c with
            | Some d => PRun stack (MString key (d :: acc))
            | None => PFail
            end
      | MUnicode key acc hex =>
          match hex_value c with
          | Some d =>
              let hex' := hex ++ [d] in
              if Nat.eqb (length hex') 4
              then PRun stack (MString key (hex4 hex' :: acc))
              else PRun stack (MUnicode key acc hex')
          | None => PFail
          end
      | MNumber st a =>
          match step_number st a c with
          | NContinue st' a' => PRun stack (MNumber st' a')
          | NBad => PFail
          | NEnd =>
              match push_value stack (JNumber (number_of a)) with
              | PRun stack' m' => step_structure stack' m' c
              | PDone v => after_done v c
              | PFail => PFail
              end
          end
      | MLiteral rest v =>
          match rest with
          | d :: rest' =>
              if c =? d then
                match rest' with
                | [] => push_value stack v
                | _ => PRun stack (MLiteral rest' v)
                end
              else PFail
          | [] => PFail
          end
      | _ => step_structure stack m c
      end
  end.

Definition run (p : pstate) (s : jstr) : pstate := fold_left step s p.

Definition initial : pstate := PRun [] (MValue false).

(** The text of the message depends on the engine; every SyntaxError of
    the parser is caught by a handler that does not read it. *)
Definition syntax_error : exn := SyntaxError (js "Unexpected token in JSON").

(** At the end of the text a top-level number may still be open. *)
Definition finish (p : pstate) : result json :=
  match p with
  | PDone v => Ok v
  | PRun [] (MNumber st a) =>
      if num_complete st then Ok (JNumber (number_of a)) else Throw syntax_error
  | _ => Throw syntax_error
  end.

(** [JSON.parse(text)] without a reviver. *)
Definition JSON_parse (text : jstr) : result json := finish (run initial text).

End Json.
Export Json.

(** ** The service: [sendMessageToGemini] *)

Module GeminiService.

(** In the literals of this development a single quote stands for the
    double quote of the JavaScript text. *)
Definition jsq (s : string) : jstr :=
  map (fun c => if c =? 39 then 34 else c) (js s).

(** *** The regular expressions of the source

    Each pattern is quoted above its definition; where a star meets a
    closing parenthesis a blank is put between them, which is not part of
    the pattern, and [dq] stands for the double quote. *)

Definition is_closer (c : N) : bool := (c =? 125) || (c =? 93).      (* [}\]] *)
Definition is_opener_or_comma (c : N) : bool := (c =? 123) || (c =? 44). (* [{,] *)
Definition is_word (c : N) : bool :=                             (* [a-zA-Z0-9_] *)
  ((97 <=? c) && (c <=? 122)) || ((65 <=? c) && (c <=? 90))
  || ((48 <=? c) && (c <=? 57)) || (c =? 95).

(** [/```json/gi] *)
Definition re_fence_json : regex := RString (js "```json").
(** [/```/g] *)
Definition re_fence : regex := RString (js "```").
(** [/,(\s*[}\]])/g]: a comma before blanks and a closer *)
Definition re_trailing_comma : regex :=
  RSeq (RChar 44) (RGroup 1 (RSeq (RStar is_js_space) (RClass is_closer))).
(** [/([{,]\s* )([a-zA-Z0-9_]+?)\s*:/g]: a bare word before a colon *)
Definition re_unquoted_key : regex :=
  RSeq (RGroup 1 (RSeq (RClass is_opener_or_comma) (RStar is_js_space)))
       (RSeq (RGroup 2 (RPlusLazy is_word))
             (RSeq (RStar is_js_space) (RChar 58))).
(** [/([}\]])\s*(?=dq)/g]: a closer directly before a string *)
Definition re_missing_comma : regex :=
  RSeq (RGroup 1 (RClass is_closer))
       (RSeq (RStar is_js_space) (RLookahead (RChar 34))).
(** [/dq designUpdate dq\s*:\s*\[/]: the opening of the array *)
Definition re_designUpdate : regex :=
  RSeq (RString (jsq "'designUpdate'"))
       (RSeq (RStar is_js_space)
             (RSeq (RChar 58) (RSeq (RStar is_js_space) (RChar 91)))).

(** *** The texts of the source *)

Definition no_response_message : jstr := js "No response from Gemini".
Definition no_api_key_message : jstr :=
  js "API_KEY is not set in environment variables".

Definition truncation_note : jstr :=
  js "Note: The design generation was partially truncated, but I recovered the geometry.".

Definition fallback_text : jstr :=
  js "I generated a design, but there was a technical error processing the response structure (JSON Syntax Error). Please try again or ask for a smaller update.".

Definition error_text (e : exn) : jstr :=
  js "I encountered an error processing the design. The model response might have been too large or complex. "
  ++ [10; 10] ++ js "Technical Error: " ++ message e
  ++ [10; 10] ++ js "Try asking for a smaller update.".

Definition key_text : jstr := js "text".
Definition key_designUpdate : jstr := js "designUpdate".

(** [{ text: fallback_text, designUpdate: [] }] *)
Definition fallback_response : json :=
  JObject [(key_text, JString fallback_text); (key_designUpdate, JArray [])].

(** [{ text: `...${error.message}...` }] *)
Definition error_response (e : exn) : json :=
  JObject [(key_text, JString (error_text e))].

(** *** The steps of the recovery *)

(** [getClient]: throws when [process.env.API_KEY] is unset or empty. *)
Definition getClient (API_KEY : option jstr) : result unit :=
  match API_KEY with
  | Some (_ :: _) => Ok tt
  | _ => Throw (Error no_api_key_message)
  end.

(** Tier 1, the cleanup:
    [jsonText.replace(/```json/gi, "").replace(/```/g, "").trim()] *)
Definition strip_markup (jsonText : jstr) : jstr :=
  trim (replace_all false re_fence []
          (replace_all true re_fence_json [] jsonText)).

(** Tier 2, the three rewrites in the order of the source. *)
Definition syntax_repair (jsonText : jstr) : jstr :=
  let repaired := jsonText in
  let repaired := replace_all false re_trailing_comma [TGroup 1] repaired in
  let repaired :=
    replace_all false re_unquoted_key
      [TGroup 1; TText [34]; TGroup 2; TText [34; 58]] repaired in
  let repaired :=
    replace_all false re_missing_comma [TGroup 1; TText [44]] repaired in
  repaired.

(** [if (!result.text) result.text = truncation_note] on the value that
    [JSON.parse] returned.  The module is strict code: reading a property
    of [null] and creating one on a primitive both throw a TypeError.  An
    array would take the property as an expando, which [json] has no place
    for; the text parsed there ends in a closing brace, so the value is
    always an object (lemma [JSON_parse_brace_object]). *)
Definition ensure_text (result : json) : Exn.result json :=
  match result with
  | JObject props =>
      if truthy (get_prop props key_text) then Ok result
      else Ok (JObject (set_prop props key_text (JString truncation_note)))
  | JArray _ => Ok result
  | JNull => Throw (TypeError (js "Cannot read properties of null"))
  | _ => Throw (TypeError (js "Cannot create property 'text'"))
  end.

(** Tier 3, the body of the inner [try]: [Ok (Some r)] is [return r],
    [Ok None] is falling out of the block. *)
Definition truncation_repair (repaired : jstr) : result (option json) :=
  match match_first re_designUpdate repaired with
  | Some (index, matched) =>
      let startIdx := (index + Z.of_nat (length matched))%Z in
      let lastObjectEnd := lastIndexOf 125 repaired in
      if (lastObjectEnd >? startIdx)%Z then
        let truncatedFixed :=
          substring0 repaired (lastObjectEnd + 1)%Z ++ js "]}" in
        (let* result := JSON_parse truncatedFixed in
         let* result := ensure_text result in
         Ok (Some result))%result
      else Ok None
  | None => Ok None
  end.

(** The statements after [const response = await ...]. *)
Definition recover (response_text : option jstr) : result json :=
  match response_text with
  | None | Some [] => Throw (Error no_response_message)
  | Some jsonText =>
      let jsonText := strip_markup jsonText in
      try_catch (JSON_parse jsonText) (fun initialError =>
        let repaired := syntax_repair jsonText in
        try_catch (JSON_parse repaired) (fun syntaxError =>
          match
            try_catch (truncation_repair repaired)
                      (fun truncationError => Ok None)
          with
          | Ok (Some result) => Ok result
          | _ => Ok fallback_response
          end))
  end.

(** [sendMessageToGemini].  The prompt, the current shapes, the history
    and the attachment only build the request; what the function returns
    depends on them through the outcome of the awaited call alone, which
    is the parameter [generateContent]: the call rejects with an
    exception or resolves to a response, of which [response.text] is
    read ([None] for [undefined]). *)
Definition sendMessageToGemini (API_KEY : option jstr)
           (generateContent : result (option jstr)) : result json :=
  try_catch
    (let* ai := getClient API_KEY in
     let* response_text := generateContent in
     recover response_text)%result
    (fun error => Ok (error_response error)).

(** The function on a raw model answer, the client being available. *)
Definition parse_model_output (API_KEY raw : jstr) : result json :=
  sendMessageToGemini (Some API_KEY) (Ok (Some raw)).

End GeminiService.
Export GeminiService.

(** ** The interfaces of [types.ts] *)

Module Types.

Inductive ShapeType : Type := box | sphere | cylinder | cone.

Inductive ShapeCategory : Type := structure | electrical | furniture | landscape.

Definition triple : Type := (number * number * number)%type.

(** [interface Shape]; an optional property that is absent or [undefined]
    is [None]. *)
Record Shape : Type := mkShape {
  id : jstr;
  type : ShapeType;
  category : option ShapeCategory;
  groupId : option jstr;
  position : triple;
  rotation : triple;
  scale : triple;
  color : jstr;
  args : option (list number);
  name : option jstr;
  roughness : option number;
  metalness : option number;
  opacity : option number;
  visible : option bool;
  emissive : option jstr;
  emissiveIntensity : option number
}.

(** [{ ...s, groupId: g }] *)
Definition with_groupId (s : Shape) (g : option jstr) : Shape :=
  {| id := id s; type := type s; category := category s; groupId := g;
     position := position s; rotation := rotation s; scale := scale s;
     color := color s; args := args s; name := name s;
     roughness := roughness s; metalness := metalness s;
     opacity := opacity s; visible := visible s; emissive := emissive s;
     emissiveIntensity := emissiveIntensity s |}.

Record MaterialInfo : Type := mkMaterialInfo {
  mi_color : jstr;
  mi_name : jstr;
  mi_description : option jstr
}.

(** [interface GeminiResponse] *)
Record GeminiResponse : Type := mkGeminiResponse {
  text : jstr;
  designUpdate : option (list Shape);
  isExplanation : option bool;
  isReview : option bool;
  materialLegend : option (list MaterialInfo)
}.

(** *** Reading a parsed value at its declared type

    [JSON.parse(...) as GeminiResponse] does not check anything.  The
    functions below say which values inhabit the interfaces, and read
    them: a required property has the declared type, an optional one is
    absent or has it; further properties are allowed.  [None] means that
    the value is not of the interface. *)

Definition as_string (v : json) : option jstr :=
  match v with JString s => Some s | _ => None end.

Definition as_number (v : json) : option number :=
  match v with JNumber n => Some n | _ => None end.

Definition as_boolean (v : json) : option bool :=
  match v with JBool b => Some b | _ => None end.

Definition as_array {A} (f : json -> option A) (v : json) : option (list A) :=
  match v with JArray items => mapM f items | _ => None end.

Definition as_triple (v : json) : option triple :=
  match v with
  | JArray [JNumber x; JNumber y; JNumber z] => Some (x, y, z)
  | _ => None
  end.

Definition as_ShapeType (v : json) : option ShapeType :=
  match v with
  | JString s =>
      if jstr_eqb s (js "box") then Some box
      else if jstr_eqb s (js "sphere") then Some sphere
      else if jstr_eqb s (js "cylinder") then Some cylinder
      else if jstr_eqb s (js "cone") then Some cone
      else None
  | _ => None
  end.

Definition as_ShapeCategory (v : json) : option ShapeCategory :=
  match v with
  | JString s =>
      if jstr_eqb s (js "structure") then Some structure
      else if jstr_eqb s (js "electrical") then Some electrical
      else if jstr_eqb s (js "furniture") then Some furniture
      else if jstr_eqb s (js "landscape") then Some landscape
      else None
  | _ => None
  end.

Definition required {A} (f : json -> option A) (props : list (jstr * json))
           (k : string) : option A :=
  match get_prop props (js k) with
  | Some v => f v
  | None => None
  end.

Definition optional {A} (f : json -> option A) (props : list (jstr * json))
           (k : string) : option (option A) :=
  match get_prop props (js k) with
  | Some v => match f v with Some a => Some (Some a) | None => None end
  | None => Some None
  end.

Definition as_Shape (v : json) : option Shape :=
  match v with
  | JObject p =>
      i ← required as_string p "id";
      t ← required as_ShapeType p "type";
      c ← optional as_ShapeCategory p "category";
      g ← optional as_string p "groupId";
      pos ← required as_triple p "position";
      rot ← required as_triple p "rotation";
      sc ← required as_triple p "scale";
      col ← required as_string p "color";
      a ← optional (as_array as_number) p "args";
      n ← optional as_string p "name";
      ro ← optional as_number p "roughness";
      me ← optional as_number p "metalness";
      op ← optional as_number p "opacity";
      vi ← optional as_boolean p "visible";
      em ← optional as_string p "emissive";
      ei ← optional as_number p "emissiveIntensity";
      Some (mkShape i t c g pos rot sc col a n ro me op vi em ei)
  | _ => None
  end.

Definition as_MaterialInfo (v : json) : option MaterialInfo :=
  match v with
  | JObject p =>
      c ← required as_string p "color";
      n ← required as_string p "name";
      d ← optional as_string p "description";
      Some (mkMaterialInfo c n d)
  | _ => None
  end.

Definition as_GeminiResponse (v : json) : option GeminiResponse :=
  match v with
  | JObject p =>
      t ← required as_string p "text";
      d ← optional (as_array as_Shape) p "designUpdate";
      e ← optional as_boolean p "isExplanation";
      r ← optional as_boolean p "isReview";
      m ← optional (as_array as_MaterialInfo) p "materialLegend";
      Some (mkGeminiResponse t d e r m)
  | _ => None
  end.

End Types.
Export Types.

(** ** [App]: the shape list and its history

    The three state atoms [shapes], [pastStates] and [futureStates] of the
    component.  A handler is a closure over the values of the render in
    which it was created ([rendered]); its updates are applied to the
    state at the time it runs ([current]): [setX(value)] stores a value
    computed from [rendered], [setX(prev => ...)] transforms [current].
    The other atoms (messages, legend, modal, loading flag) are not read by
    these handlers. *)

Module App.

Record Editor : Type := mkEditor {
  shapes : list Shape;
  pastStates : list (list Shape);
  futureStates : list (list Shape)
}.

Definition setShapes (f : list Shape -> list Shape) (st : Editor) : Editor :=
  {| shapes := f (shapes st);
     pastStates := pastStates st;
     futureStates := futureStates st |}.

Definition setPastStates (f : list (list Shape) -> list (list Shape))
           (st : Editor) : Editor :=
  {| shapes := shapes st;
     pastStates := f (pastStates st);
     futureStates := futureStates st |}.

Definition setFutureStates (f : list (list Shape) -> list (list Shape))
           (st : Editor) : Editor :=
  {| shapes := shapes st;
     pastStates := pastStates st;
     futureStates := f (futureStates st) |}.

Definition pushToHistory (rendered current : Editor) : Editor :=
  let current := setPastStates (fun prev => prev ++ [shapes rendered]) current in
  setFutureStates (fun _ => []) current.

(** [newPast.pop()]: the last element and the rest; an array is truthy,
    so [if (previousState)] holds whenever there was one. *)
Definition undo (rendered current : Editor) : Editor :=
  match rev (pastStates rendered) with
  | [] => current
  | previousState :: rest =>
      let newPast := rev rest in
      let current :=
        setFutureStates (fun prev => shapes rendered :: prev) current in
      let current := setPastStates (fun _ => newPast) current in
      setShapes (fun _ => previousState) current
  end.

Definition redo (rendered current : Editor) : Editor :=
  match futureStates rendered with
  | [] => current
  | nextState :: newFuture =>
      let current :=
        setPastStates (fun prev => prev ++ [shapes rendered]) current in
      let current := setFutureStates (fun _ => newFuture) current in
      setShapes (fun _ => nextState) current
  end.

(** The part of [handleSendMessage] after the awaited call that touches
    the shape list: [if (response.designUpdate) { pushToHistory();
    setShapes(response.designUpdate); }].  An array, also an empty one, is
    truthy. *)
Definition handleSendMessage (rendered current : Editor)
           (response : GeminiResponse) : Editor :=
  match designUpdate response with
  | Some update =>
      let current := pushToHistory rendered current in
      setShapes (fun _ => update) current
  | None => current
  end.

Definition handleShapeUpdate (rendered current : Editor)
           (updatedShape : Shape) : Editor :=
  let current := pushToHistory rendered current in
  setShapes
    (fun prev =>
       map (fun s => if jstr_eqb (id s) (id updatedShape) then updatedShape else s)
           prev)
    current.

(** [new Map(updatedShapes.map(s => [s.id, s]))]: a later entry replaces
    an earlier one with the same key. *)
Definition updateMap_of (updatedShapes : list Shape) : gmap jstr Shape :=
  fold_left (fun m s => <[id s := s]> m) updatedShapes ∅.

Definition handleShapesUpdate (rendered current : Editor)
           (updatedShapes : list Shape) : Editor :=
  let current := pushToHistory rendered current in
  setShapes
    (fun prev =>
       let updateMap := updateMap_of updatedShapes in
       map (fun s => default s (updateMap !! id s)) prev)
    current.

Definition array_includes (l : list jstr) (x : jstr) : bool :=
  existsb (jstr_eqb x) l.

Definition handleDeleteShapes (rendered current : Editor)
           (idsToDelete : list jstr) : Editor :=
  let current := pushToHistory rendered current in
  setShapes
    (fun prev => List.filter (fun s => negb (array_includes idsToDelete (id s))) prev)
    current.

Definition handleAddShape (rendered current : Editor) (newShape : Shape)
  : Editor :=
  let current := pushToHistory rendered current in
  setShapes (fun prev => prev ++ [newShape]) current.

End App.
Export App.

(** ** [Viewer3D]: selection and grouping *)

Module Viewer3D.

Inductive ToolMode : Type := select | measure.

(** The viewer's own state; [point] is the type of [e.point]. *)
Record Viewer (point : Type) : Type := mkViewer {
  selectedIds : list jstr;
  toolMode : ToolMode;
  measurePoints : list point
}.
Arguments mkViewer {point}.
Arguments selectedIds {point}.
Arguments toolMode {point}.
Arguments measurePoints {point}.

Definition setSelectedIds {point} (f : list jstr -> list jstr)
           (v : Viewer point) : Viewer point :=
  {| selectedIds := f (selectedIds v);
     toolMode := toolMode v;
     measurePoints := measurePoints v |}.

Definition setMeasurePoints {point} (f : list point -> list point)
           (v : Viewer point) : Viewer point :=
  {| selectedIds := selectedIds v;
     toolMode := toolMode v;
     measurePoints := f (measurePoints v) |}.

(** [shape.groupId] as a condition: [undefined] and the empty string are
    falsy. *)
Definition has_groupId (s : Shape) : bool :=
  match groupId s with
  | Some (_ :: _) => true
  | _ => false
  end.

(** [s.groupId === shape.groupId] *)
Definition same_groupId (s shape : Shape) : bool :=
  bool_decide (groupId s = groupId shape).

(** [handleShapeSelect(e, shape)], [e] giving [shiftKey] and [point];
    [shapes] is the prop of the render. *)
Definition handleShapeSelect {point} (shapes : list Shape) (v : Viewer point)
           (shiftKey : bool) (e_point : point) (shape : Shape) : Viewer point :=
  match toolMode v with
  | measure =>
      setMeasurePoints
        (fun prev => if (2 <=? length prev)%nat then [e_point] else prev ++ [e_point])
        v
  | select =>
      if shiftKey then
        setSelectedIds
          (fun prev =>
             if array_includes prev (id shape)
             then List.filter (fun i => negb (jstr_eqb i (id shape))) prev
             else prev ++ [id shape])
          v
      else if has_groupId shape then
        let peers := map id (List.filter (fun s => same_groupId s shape) shapes) in
        setSelectedIds (fun _ => peers) v
      else setSelectedIds (fun _ => [id shape]) v
  end.

(** [handleGroup]: the argument it passes to [onShapesUpdate], or [None]
    when it returns early.  [timestamp] is the text of [Date.now()]. *)
Definition handleGroup (shapes : list Shape) (selectedIds : list jstr)
           (timestamp : jstr) : option (list Shape) :=
  if (length selectedIds <? 2)%nat then None
  else
    let newGroupId := js "group-" ++ timestamp in
    Some (map (fun s => with_groupId s (Some newGroupId))
              (List.filter (fun s => array_includes selectedIds (id s)) shapes)).

Definition handleUngroup (shapes : list Shape) (selectedIds : list jstr)
  : option (list Shape) :=
  if (length selectedIds =? 0)%nat then None
  else
    Some (map (fun s => with_groupId s None)
              (List.filter (fun s => array_includes selectedIds (id s)) shapes)).

End Viewer3D.
Export Viewer3D.

(** ** The editor as a machine of actions *)

Module Actions.

Inductive action : Type :=
| AddShape (newShape : Shape)
| DeleteShapes (idsToDelete : list jstr)
| UpdateShape (updatedShape : Shape)
| UpdateShapes (updatedShapes : list Shape)
| ReplaceShapes (response : GeminiResponse)
| Group (selectedIds : list jstr) (timestamp : jstr)
| Ungroup (selectedIds : list jstr).

(** The handler of an action, created in the render [rendered], running
    on the state [current]. *)
Definition perform_on (rendered current : Editor) (a : action) : Editor :=
  match a with
  | AddShape s => handleAddShape rendered current s
  | DeleteShapes ids => handleDeleteShapes rendered current ids
  | UpdateShape s => handleShapeUpdate rendered current s
  | UpdateShapes l => handleShapesUpdate rendered current l
  | ReplaceShapes r => handleSendMessage rendered current r
  | Group sel ts =>
      match handleGroup (shapes rendered) sel ts with
      | Some updated => handleShapesUpdate rendered current updated
      | None => current
      end
  | Ungroup sel =>
      match handleUngroup (shapes rendered) sel with
      | Some updated => handleShapesUpdate rendered current updated
      | None => current
      end
  end.

(** The guard of the handler lets the action through: a group needs two
    selected ids, an ungroup one, a response its [designUpdate]. *)
Definition mutating (a : action) : bool :=
  match a with
  | ReplaceShapes r => bool_decide (is_Some (designUpdate r))
  | Group sel _ => (2 <=? length sel)%nat
  | Ungroup sel => (1 <=? length sel)%nat
  | _ => true
  end.

(** One step of a run.  An event of the user is handled by the render of
    the state it acts on: the render is [None].  A handler that runs later
    than the render it belongs to (the second of two calls in one event,
    as in [handlePaste]; the rest of [handleSendMessage] after the awaited
    call) carries that render: [Some rendered]. *)
Definition perform_step (st : Editor) (s : option Editor * action) : Editor :=
  perform_on (default st (fst s)) st (snd s).




(** The undo and redo of the toolbar and of the keyboard. *)
Definition undo_key (st : Editor) : Editor := undo st st.
Definition redo_key (st : Editor) : Editor := redo st st.

End Actions.
Export Actions.

(** ** The repair tiers by name, and sample data *)

Module Tiers.

(** What each tier of the recovery yields on a raw answer. *)
Definition tier1 (raw : jstr) : result json :=
  JSON_parse (strip_markup raw).

Definition tier2 (raw : jstr) : result json :=
  JSON_parse (syntax_repair (strip_markup raw)).

Definition tier3 (raw : jstr) : result (option json) :=
  try_catch (truncation_repair (syntax_repair (strip_markup raw)))
            (fun truncationError => Ok None).


(** The value has the property [text] and no other. *)
Definition only_text (v : json) : Prop :=
  exists t, v = JObject [(key_text, JString t)].

End Tiers.
Export Tiers.

Module Samples.

Definition zero : number := Number false 0 0.
Definition one : number := Number false 1 0.

(** A unit box at the origin. *)
Definition cube (i : string) (g : option jstr) : Shape :=
  mkShape (js i) box None g (zero, zero, zero) (zero, zero, zero)
          (one, one, one) (js "#ffffff") None None None None None None None None.

Definition scene3 : list Shape :=
  [cube "a" (Some (js "g1")); cube "b" None; cube "c" (Some (js "g1"))].

Definition editor0 : Editor := mkEditor [cube "a" None] [[]] [[cube "z" None]].

Definition viewer0 : Viewer unit := mkViewer [js "b"] select [].

Definition api_key : jstr := js "key".

(** A complete answer. *)
Definition answer_complete : jstr :=
  jsq "{'text':'Two boxes','designUpdate':[{'id':'s1','type':'box','position':[0,0,0],'rotation':[0,0,0],'scale':[1,1,1],'color':'#ffffff'},{'id':'s2','type':'box','position':[2,0,0],'rotation':[0,0,0],'scale':[1,1,1],'color':'#ff0000'}]}".

(** An answer up to the end of its second shape, and two ways in which a
    third shape can be cut off; in the second its name holds a closing
    brace. *)
Definition two_shapes : jstr :=
  jsq "{'text':'Three boxes','designUpdate':[{'id':'s1','type':'box','position':[0,0,0],'rotation':[0,0,0],'scale':[1,1,1],'color':'#ffffff'},{'id':'s2','type':'box','position':[2,0,0],'rotation':[0,0,0],'scale':[1,1,1],'color':'#ff0000'}".

Definition dangling_plain : jstr := jsq ",{'id':'s3','type':'bo".

Definition dangling_brace : jstr := jsq ",{'id':'s3','name':'brace }','type':'bo".

Definition answer_truncated : jstr := two_shapes ++ dangling_plain.

Definition answer_truncated_brace : jstr := two_shapes ++ dangling_brace.

(** The cut of [answer_truncated] in an answer whose text has a comma, a
    word and a colon in a row. *)
Definition answer_truncated_colon : jstr :=
  jsq "{'text':'Two boxes, note: both are white','designUpdate':[{'id':'s1','type':'box','position':[0,0,0],'rotation':[0,0,0],'scale':[1,1,1],'color':'#ffffff'},{'id':'s2','type':'box','position':[2,0,0],'rotation':[0,0,0],'scale':[1,1,1],'color':'#ffffff'},{'id':'s3','type':'bo".

(** The same cut in an answer that puts the shapes before the text. *)
Definition answer_truncated_no_text : jstr :=
  jsq "{'designUpdate':[{'id':'s1','type':'box','position':[0,0,0],'rotation':[0,0,0],'scale':[1,1,1],'color':'#ffffff'},{'id':'s2','ty".

(** A well-formed envelope whose text quotes a code fence. *)
Definition answer_with_fence : jstr :=
  jsq "{'text':'Use ```json blocks```'}".

End Samples.

(** ** Notions used in the proofs about the parser *)

Module ParserInvariant.

Definition is_lower (c : N) : bool := (97 <=? c) && (c <=? 122).

(** A literal under way has only lower-case letters left to read. *)
Definition literal_inv (p : pstate) : Prop :=
  match p with
  | PRun _ (MLiteral rest _) => forallb is_lower rest = true
  | _ => True
  end.

(** The texts that the pattern for the opening of the [designUpdate] array
    describes: the quoted name, blanks, a colon, blanks, a bracket. *)
Definition is_designUpdate_opening (m : jstr) : Prop :=
  exists ws1 ws2,
    forallb is_js_space ws1 = true /\ forallb is_js_space ws2 = true /\
    m = jsq "'designUpdate'" ++ ws1 ++ [58] ++ ws2 ++ [91].

(** The outermost open container is an object: the text read so far is
    inside the braces of a root object. *)
Definition is_object_frame (f : frame) : bool :=
  match f with
  | FArray _ => false
  | FObject _ | FMember _ _ => true
  end.

Definition root_object (stack : list frame) : bool :=
  match last stack with
  | Some f => is_object_frame f
  | None => false
  end.

Definition inside_object (p : pstate) : Prop :=
  match p with
  | PRun stack _ => root_object stack = true
  | PDone _ => False
  | PFail => True
  end.

End ParserInvariant.
Export ParserInvariant.

(** ** [App]: the projects

    The atoms of [App] that [handleOpenProject], [saveCurrentProject] and
    [handleBackToDashboard] read and write.  [legend], [prompts] and
    [chat] are the atoms [materialLegend], [history] and [messages]; the
    write to [localStorage] repeats the list that [setProjects] stores and
    is left out, as is the flag [showSaved]. *)

Module Projects.

Inductive AppMode : Type := LANDING | LOGIN | DASHBOARD | WORKSPACE | ADMIN.

Record Attachment : Type := mkAttachment {
  mimeType : jstr;
  data : jstr;
  attachment_name : option jstr
}.

Inductive Role : Type := role_user | role_model | role_system.

Record Message : Type := mkMessage {
  message_id : jstr;
  role : Role;
  message_text : jstr;
  timestamp : N;
  attachment : option Attachment
}.

(** [interface ProjectData] *)
Record ProjectData : Type := mkProjectData {
  project_id : jstr;
  project_name : jstr;
  lastModified : N;
  project_shapes : list Shape;
  project_messages : list Message;
  project_materialLegend : list MaterialInfo;
  project_history : list jstr;
  thumbnail : option jstr;
  ownerEmail : option jstr
}.

Record AppState : Type := mkAppState {
  projects : list ProjectData;
  currentProjectId : option jstr;
  editor : Editor;
  legend : list MaterialInfo;
  prompts : list jstr;
  chat : list Message;
  referenceImage : option jstr;
  mode : AppMode
}.

Definition setProjects (f : list ProjectData -> list ProjectData)
           (st : AppState) : AppState :=
  {| projects := f (projects st);
     currentProjectId := currentProjectId st;
     editor := editor st;
     legend := legend st;
     prompts := prompts st;
     chat := chat st;
     referenceImage := referenceImage st;
     mode := mode st |}.

(** [handleOpenProject(project)]: every atom is set to a value. *)
Definition handleOpenProject (current : AppState) (project : ProjectData)
  : AppState :=
  {| projects := projects current;
     currentProjectId := Some (project_id project);
     editor := mkEditor (project_shapes project) [] [];
     legend := project_materialLegend project;
     prompts := project_history project;
     chat := project_messages project;
     referenceImage := None;
     mode := WORKSPACE |}.

(** [{ ...p, shapes, materialLegend, history, messages, lastModified }] *)
Definition saved (p : ProjectData) (updatedShapes : list Shape)
           (updatedLegend : list MaterialInfo) (updatedHistory : list jstr)
           (updatedMessages : list Message) (now : N) : ProjectData :=
  {| project_id := project_id p;
     project_name := project_name p;
     lastModified := now;
     project_shapes := updatedShapes;
     project_messages := updatedMessages;
     project_materialLegend := updatedLegend;
     project_history := updatedHistory;
     thumbnail := thumbnail p;
     ownerEmail := ownerEmail p |}.

(** [saveCurrentProject]: [currentProjectId] is the one of the render,
    [null] and the empty string being falsy; the list is the current one.
    [now i] is what [Date.now()] gives when the callback runs on the
    project at index [i]. *)
Definition saveCurrentProject (rendered current : AppState) (now : nat -> N)
           (updatedShapes : list Shape) (updatedLegend : list MaterialInfo)
           (updatedHistory : list jstr) (updatedMessages : list Message)
  : AppState :=
  match currentProjectId rendered with
  | Some (c :: cid) =>
      setProjects
        (fun prevProjects =>
           imap (fun i p =>
                   if jstr_eqb (project_id p) (c :: cid)
                   then saved p updatedShapes updatedLegend updatedHistory
                              updatedMessages (now i)
                   else p)
                prevProjects)
        current
  | _ => current
  end.

(** [handleBackToDashboard]; [is_admin] is the value of
    [user.email && isAdminEmail(user.email)]. *)
Definition handleBackToDashboard (rendered current : AppState)
           (now : nat -> N) (is_admin : bool) : AppState :=
  let current :=
    saveCurrentProject rendered current now (shapes (editor rendered))
                       (legend rendered) (prompts rendered) (chat rendered) in
  {| projects := projects current;
     currentProjectId := None;
     editor := editor current;
     legend := legend current;
     prompts := prompts current;
     chat := chat current;
     referenceImage := referenceImage current;
     mode := if is_admin then ADMIN else DASHBOARD |}.

End Projects.

(** ** [Viewer3D]: the tools of the toolbar and of the keyboard *)

Module Tools.

(** [handleCanvasClick(e)]; [isDragging] is the atom of the render. *)
Definition handleCanvasClick {point} (v : Viewer point) (isDragging : bool)
           (e_point : point) : Viewer point :=
  match toolMode v with
  | measure =>
      setMeasurePoints
        (fun prev => if (2 <=? length prev)%nat then [e_point] else prev ++ [e_point])
        v
  | select =>
      if negb isDragging then setSelectedIds (fun _ => []) v else v
  end.

(** The two buttons of the tool switch:
    [setToolMode('select'); setMeasurePoints([])] and
    [setToolMode('measure'); setSelectedIds([])]. *)
Definition chooseSelect {point} (v : Viewer point) : Viewer point :=
  {| selectedIds := selectedIds v; toolMode := select; measurePoints := [] |}.

Definition chooseMeasure {point} (v : Viewer point) : Viewer point :=
  {| selectedIds := []; toolMode := measure; measurePoints := measurePoints v |}.

(** What the user does to the tool state: these four are the only places
    that write [toolMode] or [measurePoints]. *)
Inductive pointer_event (point : Type) : Type :=
| ShapeClicked (shiftKey : bool) (e_point : point) (shape : Shape)
| CanvasClicked (isDragging : bool) (e_point : point)
| SelectChosen
| MeasureChosen.
Arguments ShapeClicked {point}.
Arguments CanvasClicked {point}.
Arguments SelectChosen {point}.
Arguments MeasureChosen {point}.

Definition handle_pointer {point} (shapes : list Shape) (v : Viewer point)
           (e : pointer_event point) : Viewer point :=
  match e with
  | ShapeClicked shiftKey e_point shape =>
      handleShapeSelect shapes v shiftKey e_point shape
  | CanvasClicked isDragging e_point => handleCanvasClick v isDragging e_point
  | SelectChosen => chooseSelect v
  | MeasureChosen => chooseMeasure v
  end.

(** The state of the first render: [useState([])], [useState('select')],
    [useState([])]. *)
Definition initial_viewer {point} : Viewer point := mkViewer [] select [].

(** [handleCopy]: the new value of [clipboard]. *)
Definition handleCopy (shapes : list Shape) (selectedIds : list jstr)
           (clipboard : list Shape) : list Shape :=
  let selected := List.filter (fun s => array_includes selectedIds (id s)) shapes in
  if (0 <? length selected)%nat then selected else clipboard.

Section Paste.

(** The addition of two numbers, with its rounding. *)
Variable add : number -> number -> number.

(** [{ ...s, id: newId, position: [x + 2, y, z + 2], groupId: undefined }] *)
Definition pasted (s : Shape) (newId : jstr) : Shape :=
  let '(x, y, z) := position s in
  {| id := newId; type := type s; category := category s; groupId := None;
     position := (add x (Number false 2 0), y, add z (Number false 2 0));
     rotation := rotation s; scale := scale s;
     color := color s; args := args s; name := name s;
     roughness := roughness s; metalness := metalness s;
     opacity := opacity s; visible := visible s; emissive := emissive s;
     emissiveIntensity := emissiveIntensity s |}.

(** [handlePaste]: the shapes it passes to [onAddShape] one after the
    other, and the selection it sets; [None] when it returns early.
    [newId i] is the value of
    [Date.now() + Math.random().toString().slice(2,5)] for the clipboard
    entry at index [i]. *)
Definition handlePaste (clipboard : list Shape) (newId : nat -> jstr)
  : option (list Shape * list jstr) :=
  if (length clipboard =? 0)%nat then None
  else
    let newShapes := imap (fun i s => pasted s (newId i)) clipboard in
    Some (newShapes, map id newShapes).

End Paste.

(** [handleDelete]: the ids it passes to [onDeleteShapes] and the viewer
    after it; [None] when it returns early. *)
Definition handleDelete {point} (v : Viewer point)
  : option (list jstr * Viewer point) :=
  if (length (selectedIds v) =? 0)%nat then None
  else Some (selectedIds v, setSelectedIds (fun _ => []) v).



(** An entry of [MATERIAL_PRESETS]. *)
Record MaterialPreset : Type := mkMaterialPreset {
  preset_name : jstr;
  preset_color : jstr;
  preset_roughness : number;
  preset_metalness : number;
  preset_opacity : number;
  preset_emissive : option jstr;
  preset_emissiveIntensity : option number
}.

(** [preset.emissive || undefined] and
    [preset.emissiveIntensity || undefined]: the empty string and zero are
    falsy. *)
Definition string_or_undefined (v : option jstr) : option jstr :=
  match v with
  | Some (c :: s) => Some (c :: s)
  | _ => None
  end.

Definition number_or_undefined (v : option number) : option number :=
  match v with
  | Some n => if is_zero n then None else Some n
  | None => None
  end.

Definition with_material (s : Shape) (preset : MaterialPreset) : Shape :=
  {| id := id s; type := type s; category := category s; groupId := groupId s;
     position := position s; rotation := rotation s; scale := scale s;
     color := preset_color preset; args := args s; name := name s;
     roughness := Some (preset_roughness preset);
     metalness := Some (preset_metalness preset);
     opacity := Some (preset_opacity preset);
     visible := visible s;
     emissive := string_or_undefined (preset_emissive preset);
     emissiveIntensity := number_or_undefined (preset_emissiveIntensity preset) |}.

(** [applyMaterialPreset(preset)]: the argument of [onShapesUpdate]. *)
Definition applyMaterialPreset (shapes : list Shape) (selectedIds : list jstr)
           (preset : MaterialPreset) : list Shape :=
  map (fun s => with_material s preset)
      (List.filter (fun s => array_includes selectedIds (id s)) shapes).

(** The derived lists of the render. *)
Definition is_electrical (s : Shape) : bool :=
  match category s with
  | Some electrical => true
  | _ => false
  end.

Definition visibleShapes (showElectrical : bool) (shapes : list Shape)
  : list Shape :=
  List.filter (fun s => showElectrical || negb (is_electrical s)) shapes.

Definition selectedShapes (visibleShapes : list Shape) (selectedIds : list jstr)
  : list Shape :=
  List.filter (fun s => array_includes selectedIds (id s)) visibleShapes.

Definition unselectedShapes (visibleShapes : list Shape)
           (selectedIds : list jstr) : list Shape :=
  List.filter (fun s => negb (array_includes selectedIds (id s))) visibleShapes.

End Tools.

(** ** The two components together

    [Viewer3D] gets [shapes] and the four handlers of [App] as props; a
    command of the toolbar or of the keyboard is handled by the render of
    the state it acts on. *)

Module Workbench.
Import Tools.

Record Workbench (point : Type) : Type := mkWorkbench {
  scene : Editor;
  viewer : Viewer point;
  clipboard : list Shape
}.
Arguments mkWorkbench {point}.
Arguments scene {point}.
Arguments viewer {point}.
Arguments clipboard {point}.

(** [newShapes.forEach(s => onAddShape(s))]: every call is the handler of
    the same render. *)
Definition add_all (rendered current : Editor) (newShapes : list Shape)
  : Editor :=
  fold_left (fun current s => handleAddShape rendered current s) newShapes current.

Definition copy_selection {point} (w : Workbench point) : Workbench point :=
  {| scene := scene w;
     viewer := viewer w;
     clipboard := handleCopy (shapes (scene w)) (selectedIds (viewer w)) (clipboard w) |}.

Definition paste_clipboard {point} (add : number -> number -> number)
           (newId : nat -> jstr) (w : Workbench point) : Workbench point :=
  match handlePaste add (clipboard w) newId with
  | Some (newShapes, ids) =>
      {| scene := add_all (scene w) (scene w) newShapes;
         viewer := setSelectedIds (fun _ => ids) (viewer w);
         clipboard := clipboard w |}
  | None => w
  end.

Definition delete_selection {point} (w : Workbench point) : Workbench point :=
  match handleDelete (viewer w) with
  | Some (ids, v) =>
      {| scene := handleDeleteShapes (scene w) (scene w) ids;
         viewer := v;
         clipboard := clipboard w |}
  | None => w
  end.

(** The button of a preset:
    [selectedIds.length > 0 && applyMaterialPreset(preset)]. *)
Definition choosePreset {point} (preset : MaterialPreset)
           (w : Workbench point) : Workbench point :=
  if (0 <? length (selectedIds (viewer w)))%nat then
    {| scene :=
         handleShapesUpdate (scene w) (scene w)
           (applyMaterialPreset (shapes (scene w)) (selectedIds (viewer w)) preset);
       viewer := viewer w;
       clipboard := clipboard w |}
  else w.

End Workbench.

(** ** [constants.ts]: the material presets *)

Module Constants.
Import Tools.

(** A literal with one decimal place, [tenths / 10]. *)
Definition tenths (n : N) : number := Number false n (-1).

Definition matte_white : MaterialPreset :=
  mkMaterialPreset (js "Matte White") (js "#f8fafc")
                   (tenths 8) (tenths 0) (tenths 10) None None.
Definition polished_steel : MaterialPreset :=
  mkMaterialPreset (js "Polished Steel") (js "#94a3b8")
                   (tenths 1) (tenths 10) (tenths 10) None None.
Definition brushed_gold : MaterialPreset :=
  mkMaterialPreset (js "Brushed Gold") (js "#fbbf24")
                   (tenths 3) (tenths 10) (tenths 10) None None.
Definition clear_glass : MaterialPreset :=
  mkMaterialPreset (js "Clear Glass") (js "#a5f3fc")
                   (tenths 0) (tenths 1) (tenths 2) None None.
Definition concrete : MaterialPreset :=
  mkMaterialPreset (js "Concrete") (js "#64748b")
                   (tenths 9) (tenths 0) (tenths 10) None None.
Definition oak_wood : MaterialPreset :=
  mkMaterialPreset (js "Oak Wood") (js "#d97706")
                   (tenths 6) (tenths 0) (tenths 10) None None.
Definition midnight : MaterialPreset :=
  mkMaterialPreset (js "Midnight") (js "#0f172a")
                   (tenths 5) (tenths 1) (tenths 10) None None.
Definition neon_blue : MaterialPreset :=
  mkMaterialPreset (js "Neon Blue") (js "#3b82f6")
                   (tenths 5) (tenths 0) (tenths 10)
                   (Some (js "#3b82f6")) (Some (tenths 20)).
Definition warm_light : MaterialPreset :=
  mkMaterialPreset (js "Warm Light") (js "#fef3c7")
                   (tenths 10) (tenths 0) (tenths 10)
                   (Some (js "#fcd34d")) (Some (tenths 30)).

Definition MATERIAL_PRESETS : list MaterialPreset :=
  [matte_white; polished_steel; brushed_gold; clear_glass; concrete; oak_wood;
   midnight; neon_blue; warm_light].

End Constants.

(** ** Sample scenes *)

Module Scenes.
Import Projects Tools Workbench Constants.

(** Three boxes, none of them grouped, the second and third selected. *)
Definition loose3 : list Shape :=
  [Samples.cube "a" None; Samples.cube "b" None; Samples.cube "c" None].

Definition bench0 : Workbench unit :=
  mkWorkbench (mkEditor loose3 [[]] []) (mkViewer [js "b"; js "c"] select [])
              [Samples.cube "a" None; Samples.cube "b" None].

(** The sum of two numbers that are written without sign and exponent. *)
Definition add_naturals (x y : number) : number :=
  Number false (mantissa x + mantissa y) 0.

(** The ids [n0], [n1], ... *)
Definition numbered (i : nat) : jstr := js "n" ++ [48 + N.of_nat i].

Definition welcome : Message :=
  mkMessage (js "welcome") role_model (js "Hello!") 0 None.

Definition project1 : ProjectData :=
  mkProjectData (js "proj-1") (js "Untitled Project 1") 0 [] [welcome] [] []
                None (Some (js "a@b.c")).

Definition project2 : ProjectData :=
  mkProjectData (js "proj-2") (js "Untitled Project 2") 5 [Samples.cube "z" None]
                [welcome] [] [js "a box"] None (Some (js "a@b.c")).

(** The workspace on the first project, with a scene that is not saved
    yet. *)
Definition app0 : AppState :=
  mkAppState [project2; project1] (Some (js "proj-1"))
             (mkEditor loose3 [[]] []) [] [js "three boxes"] [welcome]
             None WORKSPACE.

End Scenes.

(** * Properties *)

(** ** The history of the shape list *)

Section History.

Lemma perform_on_mutating rendered current a :
  mutating a = true ->
  exists sh,
    perform_on rendered current a
    = mkEditor sh (pastStates current ++ [shapes rendered]) [].
Proof.
  destruct a as [s|ids|s|l|r|sel ts|sel]; unfold mutating, perform_on; intros Hm;
    try (eexists; reflexivity).
  - apply bool_decide_eq_true in Hm. destruct Hm as [d Hd].
    unfold handleSendMessage. rewrite Hd. eexists; reflexivity.
  - unfold handleGroup.
    apply Nat.leb_le in Hm.
    destruct (Nat.ltb_spec (length sel) 2) as [Hlt|_]; [lia|].
    eexists; reflexivity.
  - unfold handleUngroup.
    apply Nat.leb_le in Hm.
    destruct (Nat.eqb_spec (length sel) 0) as [Heq|_]; [lia|].
    eexists; reflexivity.
Qed.

Lemma undo_key_push sh p s0 f :
  undo_key (mkEditor sh (p ++ [s0]) f) = mkEditor s0 p (sh :: f).
Proof.
  unfold undo_key, undo. simpl.
  rewrite rev_app_distr. simpl. rewrite rev_involutive. reflexivity.
Qed.

Lemma redo_key_pop s0 p sh f :
  redo_key (mkEditor s0 p (sh :: f)) = mkEditor sh (p ++ [s0]) f.
Proof. reflexivity. Qed.





Lemma undo_key_past st :
  length (pastStates (undo_key st)) = Nat.pred (length (pastStates st)).
Proof.
  destruct st as [sh p f].
  destruct (decide (p = [])) as [->|Hp]; [reflexivity|].
  destruct (exists_last Hp) as (p' & s0 & ->).
  rewrite undo_key_push. simpl. rewrite length_app. simpl. lia.
Qed.


End History.



(** The snapshot that a handler pushes is the shape list of its render:
    when a response arrives after an edit made while the request was in
    flight, one undo leads to the shapes of the time of the request. *)
Remark late_response_snapshot :
  let sent := mkEditor [Samples.cube "a" None] [] [] in
  let edited := perform_step sent (None, UpdateShape (Samples.cube "a" (Some (js "g")))) in
  let r := mkGeminiResponse (js "ok") (Some []) None None None in
  let arrived := perform_step edited (Some sent, ReplaceShapes r) in
  shapes edited = [Samples.cube "a" (Some (js "g"))] /\
  shapes (undo_key arrived) = [Samples.cube "a" None] /\
  shapes (undo_key (undo_key arrived)) = shapes sent.
Proof. repeat split. Qed.

(** C6: every mutating action on the scene (add, delete, update of one or
    of several shapes, replacement by a design update, group, ungroup)
    leaves [futureStates] empty. *)
Theorem mutating_action_clears_futureStates (rendered current : Editor)
        (a : action) :
  mutating a = true -> futureStates (perform_on rendered current a) = [].
Proof.
  intros Ha. destruct (perform_on_mutating rendered current a Ha) as [sh ->].
  reflexivity.
Qed.

Lemma mutating_action_clears_futureStates_witness :
  mutating (Group [js "a"; js "b"] (js "1700000000000")) = true /\
  futureStates Samples.editor0 <> [] /\
  futureStates (perform_on Samples.editor0 Samples.editor0
                  (Group [js "a"; js "b"] (js "1700000000000"))) = [].
Proof.
  split; [reflexivity|]. split; [discriminate|].
  apply (mutating_action_clears_futureStates Samples.editor0 Samples.editor0).
  reflexivity.
Defined.

(** [pushToHistory] itself empties the redo stack, and so does each
    handler that calls it. *)
Lemma handlers_clear_futureStates rendered current s l ids :
  futureStates (pushToHistory rendered current) = [] /\
  futureStates (handleAddShape rendered current s) = [] /\
  futureStates (handleDeleteShapes rendered current ids) = [] /\
  futureStates (handleShapeUpdate rendered current s) = [] /\
  futureStates (handleShapesUpdate rendered current l) = [].
Proof. repeat split. Qed.

(** ** The design update of a response *)

Lemma optional_Some_None {A} (f : json -> option A) p k :
  optional f p k = Some None <-> get_prop p (js k) = None.
Proof.
  unfold optional. destruct (get_prop p (js k)) as [v|]; [|tauto].
  destruct (f v); split; congruence.
Qed.

(** The typed reading of an object has a [designUpdate] exactly when the
    object has the property. *)
Lemma as_GeminiResponse_designUpdate p r :
  as_GeminiResponse (JObject p) = Some r ->
  (designUpdate r = None <-> get_prop p key_designUpdate = None) /\
  (get_prop p key_designUpdate = Some (JArray []) -> designUpdate r = Some []).
Proof.
  unfold as_GeminiResponse. intros H.
  destruct (required as_string p "text") as [t|]; [|discriminate].
  simpl in H.
  destruct (optional (as_array as_Shape) p "designUpdate") as [d|] eqn:Hd;
    [|discriminate].
  simpl in H.
  destruct (optional as_boolean p "isExplanation") as [e|]; [|discriminate].
  destruct (optional as_boolean p "isReview") as [rv|]; [|discriminate].
  destruct (optional (as_array as_MaterialInfo) p "materialLegend") as [m|];
    [|discriminate].
  simpl in H. injection H as <-. simpl.
  change key_designUpdate with (js "designUpdate"). split.
  - rewrite <- (optional_Some_None (as_array as_Shape)). rewrite Hd.
    split; congruence.
  - intros Hg. unfold optional in Hd.
    rewrite Hg in Hd. simpl in Hd. congruence.
Qed.

(** C3: a response without [designUpdate] leaves the shapes and both
    stacks as they are; a response whose [designUpdate] is the empty array
    pushes a history entry and empties the shape list; the two outcomes
    differ. *)
Theorem designUpdate_absent_or_empty (rendered current : Editor)
        (r_absent r_empty : GeminiResponse) :
  designUpdate r_absent = None ->
  designUpdate r_empty = Some [] ->
  handleSendMessage rendered current r_absent = current /\
  handleSendMessage rendered current r_empty
  = mkEditor [] (pastStates current ++ [shapes rendered]) [] /\
  handleSendMessage rendered current r_absent
  <> handleSendMessage rendered current r_empty.
Proof.
  intros Ha He. unfold handleSendMessage. rewrite Ha, He.
  split; [reflexivity|]. split; [reflexivity|].
  destruct current as [sh p f]. simpl. intros E.
  injection E as _ Hp _.
  apply (f_equal length) in Hp. rewrite length_app in Hp. simpl in Hp. lia.
Qed.

Lemma designUpdate_absent_or_empty_witness :
  let r_absent := mkGeminiResponse (js "ok") None None None None in
  let r_empty := mkGeminiResponse (js "ok") (Some []) None None None in
  handleSendMessage Samples.editor0 Samples.editor0 r_absent = Samples.editor0 /\
  handleSendMessage Samples.editor0 Samples.editor0 r_empty
  = mkEditor [] (pastStates Samples.editor0 ++ [shapes Samples.editor0]) [] /\
  handleSendMessage Samples.editor0 Samples.editor0 r_absent
  <> handleSendMessage Samples.editor0 Samples.editor0 r_empty.
Proof.
  intros r_absent r_empty.
  apply (designUpdate_absent_or_empty Samples.editor0 Samples.editor0
           r_absent r_empty); reflexivity.
Defined.

(** ** Batch update *)

Section BatchUpdate.

Lemma updateMap_of_snoc (l : list Shape) (p : Shape) :
  updateMap_of (l ++ [p]) = <[id p := p]> (updateMap_of l).
Proof. unfold updateMap_of. rewrite fold_left_app. reflexivity. Qed.

(** The map holds, for each id, the last patch of that id. *)
Lemma updateMap_of_lookup (l : list Shape) (k : jstr) :
  updateMap_of l !! k = last (filter (fun p => id p = k) l).
Proof.
  induction l as [|p l IH] using rev_ind; [reflexivity|].
  rewrite updateMap_of_snoc, filter_app.
  destruct (decide (id p = k)) as [Hk|Hk].
  - rewrite Hk, lookup_insert_eq.
    rewrite filter_cons_True by assumption.
    rewrite filter_nil, last_snoc. reflexivity.
  - rewrite lookup_insert_ne by assumption.
    rewrite filter_cons_False by assumption.
    rewrite filter_nil, app_nil_r. exact IH.
Qed.

Lemma updateMap_of_id (l : list Shape) (k : jstr) (p : Shape) :
  updateMap_of l !! k = Some p -> id p = k.
Proof.
  rewrite updateMap_of_lookup. intros H.
  apply last_Some_elem_of in H.
  apply list_elem_of_filter in H. tauto.
Qed.

Lemma updateMap_of_unmatched (l1 l2 : list Shape) (p : Shape) (k : jstr) :
  id p <> k ->
  updateMap_of (l1 ++ p :: l2) !! k = updateMap_of (l1 ++ l2) !! k.
Proof.
  intros Hk. rewrite !updateMap_of_lookup, !filter_app.
  rewrite filter_cons_False by assumption. reflexivity.
Qed.

End BatchUpdate.

(** C9: a batch update keeps the length and the order of ids of the shape
    list; a shape whose id occurs among the patches is replaced in place by
    the (last) patch of that id, every other shape is kept, and a patch
    whose id matches no shape changes nothing and is not appended. *)
Theorem handleShapesUpdate_in_place (rendered current : Editor)
        (patches : list Shape) :
  let after := shapes (handleShapesUpdate rendered current patches) in
  length after = length (shapes current) /\
  map id after = map id (shapes current) /\
  (forall (i : nat) (s : Shape),
      shapes current !! i = Some s ->
      after !! i
      = Some (default s (last (filter (fun p => id p = id s) patches)))) /\
  (forall (l1 l2 : list Shape) (p : Shape),
      patches = l1 ++ p :: l2 ->
      id p ∉ map id (shapes current) ->
      shapes (handleShapesUpdate rendered current (l1 ++ l2)) = after).
Proof.
  simpl. repeat split.
  - apply length_map.
  - rewrite map_map. apply map_ext_in. intros s _.
    destruct (updateMap_of patches !! id s) as [p|] eqn:Hp; [|reflexivity].
    simpl. exact (updateMap_of_id _ _ _ Hp).
  - intros i s Hs. rewrite list_lookup_fmap, Hs. simpl.
    rewrite updateMap_of_lookup. reflexivity.
  - intros l1 l2 p -> Hp.
    apply map_ext_in. intros s Hs.
    rewrite updateMap_of_unmatched; [reflexivity|].
    intros E. apply Hp. rewrite E.
    apply list_elem_of_In. apply in_map. exact Hs.
Qed.

Lemma handleShapesUpdate_in_place_witness :
  let current := mkEditor Samples.scene3 [] [] in
  let patch_b := Samples.cube "b" (Some (js "g2")) in
  let patch_x := Samples.cube "x" None in
  shapes (handleShapesUpdate current current [patch_x; patch_b])
  = [Samples.cube "a" (Some (js "g1")); patch_b; Samples.cube "c" (Some (js "g1"))] /\
  shapes (handleShapesUpdate current current ([] ++ [patch_b]))
  = shapes (handleShapesUpdate current current [patch_x; patch_b]).
Proof.
  intros current patch_b patch_x. split; [vm_compute; reflexivity|].
  destruct (handleShapesUpdate_in_place current current [patch_x; patch_b])
    as (_ & _ & _ & H).
  apply (H [] [patch_b] patch_x); [reflexivity|].
  vm_compute. intros Hin. repeat (apply elem_of_cons in Hin as [Hin|Hin]; [discriminate|]).
  inversion Hin.
Defined.

(** ** Selection *)

Lemma array_includes_elem_of (l : list jstr) (x : jstr) :
  array_includes l x = true <-> x ∈ l.
Proof.
  unfold array_includes. rewrite existsb_exists. split.
  - intros (y & Hy & E). apply bool_decide_eq_true in E. subst.
    apply list_elem_of_In. exact Hy.
  - intros H. exists x. split; [apply list_elem_of_In; exact H|].
    apply bool_decide_eq_true. reflexivity.
Qed.

(** C8: with the select tool, a click without shift on a shape that has a
    [groupId] (a non-empty string: the condition of the source is the
    truthiness of [shape.groupId]) selects exactly the ids of the shapes
    with that [groupId], in scene order; on a shape without one it selects
    exactly that shape; a click with shift toggles the membership of the
    shape's id and keeps that of every other id. *)
Theorem handleShapeSelect_selection {point : Type} (shapes : list Shape)
        (v : Viewer point) (e_point : point) (shape : Shape) :
  toolMode v = select ->
  (forall c g, groupId shape = Some (c :: g) ->
   selectedIds (handleShapeSelect shapes v false e_point shape)
   = map id (List.filter (fun s => bool_decide (groupId s = groupId shape)) shapes)) /\
  (groupId shape = None \/ groupId shape = Some [] ->
   selectedIds (handleShapeSelect shapes v false e_point shape) = [id shape]) /\
  (forall i : jstr,
      i ∈ selectedIds (handleShapeSelect shapes v true e_point shape) <->
      (if decide (i = id shape) then i ∉ selectedIds v else i ∈ selectedIds v)).
Proof.
  intros Hmode. unfold handleShapeSelect. rewrite Hmode. repeat split.
  - intros c g Hg.
    assert (Hh : has_groupId shape = true)
      by (unfold has_groupId; rewrite Hg; reflexivity).
    rewrite Hh. reflexivity.
  - intros Hg.
    assert (Hh : has_groupId shape = false)
      by (unfold has_groupId; destruct Hg as [-> | ->]; reflexivity).
    rewrite Hh. reflexivity.
  - simpl. destruct (array_includes (selectedIds v) (id shape)) eqn:Hin.
    + apply array_includes_elem_of in Hin. intros Hi.
      apply list_elem_of_In, filter_In in Hi as [Hi Hne].
      apply list_elem_of_In in Hi.
      apply negb_true_iff, bool_decide_eq_false in Hne.
      destruct (decide (i = id shape)); [contradiction|exact Hi].
    + assert (Hnot : id shape ∉ selectedIds v).
      { intros H. apply array_includes_elem_of in H. congruence. }
      intros Hi. apply elem_of_app in Hi as [Hi|Hi].
      * destruct (decide (i = id shape)) as [->|]; [contradiction|exact Hi].
      * apply list_elem_of_singleton in Hi. subst.
        destruct (decide (id shape = id shape)); [exact Hnot|contradiction].
  - simpl. destruct (array_includes (selectedIds v) (id shape)) eqn:Hin.
    + apply array_includes_elem_of in Hin.
      destruct (decide (i = id shape)) as [->|Hne]; [contradiction|].
      intros Hi. apply list_elem_of_In, filter_In. split.
      * apply list_elem_of_In. exact Hi.
      * apply negb_true_iff, bool_decide_eq_false. exact Hne.
    + destruct (decide (i = id shape)) as [->|Hne]; intros Hi.
      * apply elem_of_app. right. apply list_elem_of_singleton. reflexivity.
      * apply elem_of_app. left. exact Hi.
Qed.

Lemma handleShapeSelect_selection_witness :
  toolMode Samples.viewer0 = select /\
  selectedIds (handleShapeSelect Samples.scene3 Samples.viewer0 false tt
                 (Samples.cube "a" (Some (js "g1"))))
  = [js "a"; js "c"] /\
  selectedIds (handleShapeSelect Samples.scene3 Samples.viewer0 false tt
                 (Samples.cube "b" None))
  = [js "b"] /\
  js "b" ∉ selectedIds (handleShapeSelect Samples.scene3 Samples.viewer0 true tt
                          (Samples.cube "b" None)).
Proof.
  split; [reflexivity|].
  destruct (handleShapeSelect_selection Samples.scene3 Samples.viewer0 tt
              (Samples.cube "a" (Some (js "g1"))) eq_refl) as (Hg & _ & _).
  destruct (handleShapeSelect_selection Samples.scene3 Samples.viewer0 tt
              (Samples.cube "b" None) eq_refl) as (_ & Hu & Ht).
  split; [rewrite (Hg 103 [49]) by reflexivity; vm_compute; reflexivity|].
  split; [apply Hu; left; reflexivity|].
  intros Hin. apply Ht in Hin. simpl in Hin.
  apply Hin. vm_compute. apply list_elem_of_here.
Defined.

(** A group of three: the click on one member selects the three ids. *)
Example group_of_three_selected :
  let scene := [Samples.cube "a" (Some (js "g1")); Samples.cube "x" None;
                Samples.cube "b" (Some (js "g1")); Samples.cube "y" (Some (js "g2"));
                Samples.cube "c" (Some (js "g1"))] in
  selectedIds (handleShapeSelect scene Samples.viewer0 false tt
                 (Samples.cube "b" (Some (js "g1"))))
  = [js "a"; js "b"; js "c"].
Proof. reflexivity. Qed.

(** In the measure tool the click adds a point and selects nothing. *)
Remark handleShapeSelect_measure {point : Type} (shapes : list Shape)
       (v : Viewer point) (shiftKey : bool) (e_point : point) (shape : Shape) :
  toolMode v = measure ->
  selectedIds (handleShapeSelect shapes v shiftKey e_point shape) = selectedIds v.
Proof. intros Hm. unfold handleShapeSelect. rewrite Hm. reflexivity. Qed.

(** ** The recovery never throws *)

Section Totality.

Lemma recover_nonempty_returns (c : N) (raw : jstr) :
  returns (recover (Some (c :: raw))).
Proof.
  unfold recover, returns.
  destruct (JSON_parse (strip_markup (c :: raw))) as [v|e]; simpl; [eauto|].
  destruct (JSON_parse (syntax_repair (strip_markup (c :: raw)))) as [v|e'];
    simpl; [eauto|].
  destruct (truncation_repair _) as [[r|]|e'']; simpl; eauto.
Qed.

(** The statements of the [try] block throw exactly when the client
    cannot be made, the call rejects or the response has no text. *)
Lemma recover_throws_iff (response_text : option jstr) :
  throws (recover response_text) <->
  response_text = None \/ response_text = Some [].
Proof.
  split.
  - intros [e He]. destruct response_text as [[|c raw]|]; auto.
    destruct (recover_nonempty_returns c raw) as [v Hv].
    discriminate (eq_trans (eq_sym He) Hv).
  - intros [->| ->]; eexists; reflexivity.
Qed.


Lemma parse_model_output_nonempty (k : N) (key : jstr) (raw : jstr) :
  raw <> [] ->
  parse_model_output (k :: key) raw = recover (Some raw).
Proof.
  intros Hraw. destruct raw as [|c raw]; [contradiction|].
  unfold parse_model_output, sendMessageToGemini. simpl getClient.
  cbn [bind]. destruct (recover_nonempty_returns c raw) as [v Hv].
  rewrite Hv. reflexivity.
Qed.

Lemma recover_tiers (c : N) (raw : jstr) :
  recover (Some (c :: raw))
  = match tier1 (c :: raw) with
    | Ok v => Ok v
    | Throw _ =>
        match tier2 (c :: raw) with
        | Ok v => Ok v
        | Throw _ =>
            match tier3 (c :: raw) with
            | Ok (Some v) => Ok v
            | _ => Ok fallback_response
            end
        end
    end.
Proof.
  unfold recover, tier1, tier2, tier3.
  destruct (JSON_parse (strip_markup (c :: raw))); simpl; [reflexivity|].
  destruct (JSON_parse (syntax_repair (strip_markup (c :: raw)))); reflexivity.
Qed.

End Totality.

(** C7 fails as stated: the empty answer does not produce the fallback
    envelope, and the envelope it produces has no [designUpdate]. *)
Lemma empty_answer_is_not_fallback :
  parse_model_output Samples.api_key [] <> Ok fallback_response /\
  exists props,
    parse_model_output Samples.api_key [] = Ok (JObject props) /\
    get_prop props key_designUpdate = None.
Proof.
  split; [discriminate|]. eexists. split; reflexivity.
Qed.

(** C7, as the code has it: on the empty answer no parse is attempted; the
    guard throws [No response from Gemini], and the function returns the
    error envelope, which has the property [text] with that message in it
    and no [designUpdate]. *)
Theorem empty_answer_error_envelope (k : N) (key : jstr) :
  recover (Some []) = Throw (Error no_response_message) /\
  parse_model_output (k :: key) []
  = Ok (error_response (Error no_response_message)) /\
  only_text (error_response (Error no_response_message)) /\
  includes no_response_message (error_text (Error no_response_message)) = true.
Proof.
  repeat split. eexists; reflexivity.
Qed.



(** ** Failures at the call boundary *)

Lemma error_response_reading (e : exn) :
  as_GeminiResponse (error_response e)
  = Some (mkGeminiResponse (error_text e) None None None None).
Proof. reflexivity. Qed.

(** C10: when the statements of the [try] block throw (no API key, a
    rejected call, a response without text), the function returns an
    envelope with the property [text] only; its typed reading has no
    [designUpdate], so the caller neither pushes a history entry nor
    changes the shapes. *)
Theorem call_failure_changes_nothing (API_KEY : option jstr)
        (generateContent : result (option jstr)) :
  throws (getClient API_KEY) \/ throws generateContent \/
  generateContent = Ok None \/ generateContent = Ok (Some []) ->
  exists (e : exn) (r : GeminiResponse),
    sendMessageToGemini API_KEY generateContent = Ok (error_response e) /\
    only_text (error_response e) /\
    get_prop [(key_text, JString (error_text e))] key_designUpdate = None /\
    as_GeminiResponse (error_response e) = Some r /\
    designUpdate r = None /\
    forall rendered current : Editor,
      handleSendMessage rendered current r = current.
Proof.
  intros H.
  assert (He : exists e, sendMessageToGemini API_KEY generateContent
                         = Ok (error_response e)).
  { unfold sendMessageToGemini.
    destruct H as [[e He]|[[e He]|[He|He]]].
    - rewrite He. eexists; reflexivity.
    - rewrite He. destruct (getClient API_KEY); eexists; reflexivity.
    - rewrite He. destruct (getClient API_KEY); eexists; reflexivity.
    - rewrite He. destruct (getClient API_KEY); eexists; reflexivity. }
  destruct He as [e He]. exists e. eexists.
  split; [exact He|]. split; [eexists; reflexivity|].
  split; [reflexivity|]. split; [apply error_response_reading|].
  split; reflexivity.
Qed.

Lemma call_failure_changes_nothing_witness :
  throws (getClient None) /\
  exists (e : exn) (r : GeminiResponse),
    sendMessageToGemini None (Ok (Some Samples.answer_complete))
    = Ok (error_response e) /\
    only_text (error_response e) /\
    get_prop [(key_text, JString (error_text e))] key_designUpdate = None /\
    as_GeminiResponse (error_response e) = Some r /\
    designUpdate r = None /\
    forall rendered current : Editor,
      handleSendMessage rendered current r = current.
Proof.
  assert (H : throws (getClient None)) by (eexists; reflexivity).
  split; [exact H|].
  apply (call_failure_changes_nothing None (Ok (Some Samples.answer_complete))).
  left. exact H.
Defined.

(** ** The parser and blanks, braces and fences *)

Section ParserFacts.

Lemma run_PFail (s : jstr) : run PFail s = PFail.
Proof. induction s as [|c s IH]; [reflexivity|exact IH]. Qed.

Lemma run_snoc (p : pstate) (s : jstr) (c : N) :
  run p (s ++ [c]) = step (run p s) c.
Proof. unfold run. rewrite fold_left_app. reflexivity. Qed.

Lemma push_value_inv stack v : literal_inv (push_value stack v).
Proof. destruct stack as [|[items|props|props key] stack]; exact I. Qed.

Lemma step_structure_inv stack m c :
  literal_inv (PRun stack m) -> literal_inv (step_structure stack m c).
Proof.
  intros Hm. unfold step_structure, start_value, close_array, close_object.
  repeat case_match; try exact I; try apply push_value_inv; try exact Hm;
    reflexivity.
Qed.

Lemma step_inv p c : literal_inv p -> literal_inv (step p c).
Proof.
  intros Hp. destruct p as [stack m|v|]; [|unfold step, after_done; case_match; exact I|exact I].
  destruct m; try apply (step_structure_inv _ _ _ Hp); unfold step.
  - unfold end_string. repeat case_match; try exact I; apply push_value_inv.
  - repeat case_match; exact I.
  - repeat case_match; exact I.
  - destruct (step_number st a c); try exact I.
    destruct (push_value stack (JNumber (number_of a))) eqn:E; try exact I.
    + apply step_structure_inv. rewrite <- E. apply push_value_inv.
    + unfold after_done. case_match; exact I.
  - destruct rest as [|d rest]; [exact I|].
    simpl in Hp. apply andb_true_iff in Hp as [_ Hp].
    repeat case_match; try exact I; try apply push_value_inv; subst; exact Hp.
Qed.

Lemma run_inv p s : literal_inv p -> literal_inv (run p s).
Proof.
  revert p. induction s as [|c s IH]; intros p Hp; [exact Hp|].
  apply IH, step_inv, Hp.
Qed.

(** Tests of a blank against the characters of the grammar. *)
Lemma blank_neq (c k : N) :
  is_js_space c = true -> is_js_space k = false -> (c =? k) = false.
Proof.
  intros Hc Hk. destruct (N.eqb_spec c k) as [->|]; [congruence|reflexivity].
Qed.

Lemma blank_not_digit (c : N) : is_js_space c = true -> is_digit c = false.
Proof.
  intros Hc. unfold is_digit.
  destruct (N.leb_spec 48 c), (N.leb_spec c 57); try reflexivity.
  exfalso. revert Hc. unfold is_js_space.
  repeat match goal with
         | |- context [?a =? ?b] => destruct (N.eqb_spec a b); [lia|]
         | |- context [?a <=? ?b] => destruct (N.leb_spec a b); [lia|]
         end.
  simpl. discriminate.
Qed.

Lemma blank_not_lower (c d : N) :
  is_js_space c = true -> is_lower d = true -> (c =? d) = false.
Proof.
  intros Hc Hd. apply blank_neq; [exact Hc|].
  unfold is_lower in Hd. apply andb_true_iff in Hd as [H1 H2].
  apply N.leb_le in H1, H2. unfold is_js_space.
  repeat match goal with
         | |- context [?a =? ?b] => destruct (N.eqb_spec a b); [lia|]
         | |- context [?a <=? ?b] => destruct (N.leb_spec a b); [lia|]
         end.
  reflexivity.
Qed.

Ltac blank_tests Hc :=
  repeat match goal with
         | |- context [?c =? ?k] =>
             rewrite (blank_neq c k Hc eq_refl)
         end;
  rewrite ?(blank_not_digit _ Hc).

Lemma finish_structure stack m :
  match m with MNumber _ _ => False | _ => True end ->
  finish (PRun stack m) = Throw syntax_error.
Proof. destruct stack, m; simpl; tauto. Qed.

(** A blank read between tokens either is skipped or is an error. *)
Lemma step_structure_blank stack m c :
  is_js_space c = true ->
  step_structure stack m c = PRun stack m \/ step_structure stack m c = PFail.
Proof.
  intros Hc. unfold step_structure, start_value.
  destruct (is_json_space c); [left; reflexivity|right].
  destruct m; try reflexivity; blank_tests Hc; reflexivity.
Qed.

(** A blank at the end of a text does not decide its acceptance. *)
Lemma finish_step_blank p c v :
  literal_inv p -> is_js_space c = true ->
  finish (step p c) = Ok v -> finish p = Ok v.
Proof.
  intros Hp Hc. destruct p as [stack m|v'|]; [| |discriminate].
  - destruct m.
    1-4: unfold step;
      match goal with
      | |- context [step_structure ?s ?m ?c] =>
          destruct (step_structure_blank s m c Hc) as [-> | ->]
      end;
      [rewrite finish_structure by exact I|]; discriminate.
    + unfold step. blank_tests Hc.
      destruct (c <? 32); [discriminate|].
      rewrite finish_structure by exact I. discriminate.
    + unfold step. blank_tests Hc. unfold unescape. blank_tests Hc. discriminate.
    + unfold step. destruct (hex_value c); [|discriminate].
      case_match; rewrite finish_structure by exact I; discriminate.
    + unfold step, step_number. blank_tests Hc. simpl "||".
      destruct st; try discriminate.
      all: destruct stack as [|[items|props|props key] stack]; simpl push_value;
        try discriminate.
      all: try (unfold after_done; destruct (is_json_space c); simpl; [tauto|discriminate]).
      all: cbv beta iota;
        match goal with
        | |- context [step_structure ?s ?m ?c] =>
            destruct (step_structure_blank s m c Hc) as [-> | ->]
        end; discriminate.
    + unfold step. destruct rest as [|d rest]; [discriminate|].
      simpl in Hp. apply andb_true_iff in Hp as [Hd _].
      rewrite (blank_not_lower c d Hc Hd). discriminate.
  - unfold step, after_done. destruct (is_json_space c); simpl; [tauto|discriminate].
Qed.

Lemma JSON_parse_blank_end s c v :
  is_js_space c = true -> JSON_parse (s ++ [c]) = Ok v -> JSON_parse s = Ok v.
Proof.
  unfold JSON_parse. rewrite run_snoc. intros Hc.
  apply finish_step_blank; [apply run_inv; exact I|exact Hc].
Qed.

Lemma JSON_parse_blank_start s c v :
  is_js_space c = true -> JSON_parse (c :: s) = Ok v -> JSON_parse s = Ok v.
Proof.
  unfold JSON_parse. intros Hc.
  change (run initial (c :: s)) with (run (step_structure [] (MValue false) c) s).
  destruct (step_structure_blank [] (MValue false) c Hc) as [-> | ->].
  - tauto.
  - rewrite run_PFail. discriminate.
Qed.

Lemma JSON_parse_trimStart s v :
  JSON_parse s = Ok v -> JSON_parse (trimStart s) = Ok v.
Proof.
  induction s as [|c s IH]; [tauto|]. simpl.
  destruct (is_js_space c) eqn:Hc; [|tauto].
  intros H. apply IH. exact (JSON_parse_blank_start s c v Hc H).
Qed.

Lemma JSON_parse_trimEnd s v :
  JSON_parse s = Ok v -> JSON_parse (trimEnd s) = Ok v.
Proof.
  unfold trimEnd. rewrite <- (rev_involutive s) at 1.
  generalize (rev s). clear s. intros l.
  induction l as [|c l IH]; [tauto|]. simpl.
  destruct (is_js_space c) eqn:Hc; [|tauto].
  intros H. apply IH. exact (JSON_parse_blank_end (rev l) c v Hc H).
Qed.

Lemma JSON_parse_trim s v :
  JSON_parse s = Ok v -> JSON_parse (trim s) = Ok v.
Proof. intros H. apply JSON_parse_trimEnd, JSON_parse_trimStart, H. Qed.

(** A text that ends in a closing brace and parses is an object. *)
Lemma step_brace_object p v :
  literal_inv p -> finish (step p 125) = Ok v -> exists props, v = JObject props.
Proof.
  intros Hp. destruct p as [stack m|v'|]; [|discriminate|discriminate].
  assert (Hclose : forall st, finish (close_object st) = Ok v ->
                              exists props, v = JObject props).
  { intros st. unfold close_object.
    destruct st as [|[items|props|props key] st]; try discriminate.
    destruct st as [|[items|props'|props' key] st]; try discriminate.
    simpl. intros [= <-]. eauto. }
  destruct m; unfold step.
  - unfold step_structure, start_value. simpl. discriminate.
  - unfold step_structure. simpl. destruct first; [apply Hclose|discriminate].
  - unfold step_structure. simpl. discriminate.
  - unfold step_structure. simpl. apply Hclose.
  - simpl. destruct stack; discriminate.
  - simpl. discriminate.
  - simpl. discriminate.
  - unfold step_number. simpl.
    destruct st; try discriminate.
    all: destruct stack as [|[items|props|props key] stack]; simpl push_value;
      try discriminate; cbv beta iota; unfold step_structure; simpl.
    all: try discriminate.
    all: intros H;
      match type of H with
      | finish (push_value ?st (JObject ?p)) = _ =>
          exact (Hclose (FObject p :: st) H)
      end.
  - destruct rest as [|d rest]; [discriminate|].
    simpl in Hp. apply andb_true_iff in Hp as [Hd _].
    destruct (N.eqb_spec 125 d) as [<-|]; [discriminate Hd|discriminate].
Qed.

Lemma JSON_parse_brace_object s v :
  JSON_parse (s ++ [125]) = Ok v -> exists props, v = JObject props.
Proof.
  unfold JSON_parse. rewrite run_snoc.
  apply step_brace_object, run_inv. exact I.
Qed.

End ParserFacts.

Section Unclosed.

Lemma root_object_cons f stack :
  stack <> [] -> root_object (f :: stack) = root_object stack.
Proof. destruct stack; [contradiction|reflexivity]. Qed.

Lemma root_object_nonempty stack : root_object stack = true -> stack <> [].
Proof. intros H ->. discriminate H. Qed.

Lemma root_object_push f stack :
  root_object stack = true -> root_object (f :: stack) = true.
Proof.
  intros H. rewrite root_object_cons; [exact H|].
  apply root_object_nonempty, H.
Qed.

(** Replacing the innermost frame by one of the same kind. *)
Lemma root_object_replace f g stack :
  is_object_frame f = is_object_frame g ->
  root_object (f :: stack) = true -> root_object (g :: stack) = true.
Proof.
  intros Hfg. destruct stack as [|h stack]; [|tauto].
  unfold root_object. simpl. congruence.
Qed.

Lemma push_value_inside stack v :
  root_object stack = true -> inside_object (push_value stack v).
Proof.
  intros H. destruct stack as [|[items|props|props key] stack]; simpl.
  - discriminate H.
  - eapply root_object_replace; [|exact H]. reflexivity.
  - exact I.
  - eapply root_object_replace; [|exact H]. reflexivity.
Qed.

Lemma close_array_inside stack :
  root_object stack = true -> inside_object (close_array stack).
Proof.
  intros H. unfold close_array.
  destruct stack as [|[items|props|props key] stack]; try exact I.
  destruct stack as [|f stack]; [discriminate H|].
  apply push_value_inside. exact H.
Qed.

Lemma step_structure_inside stack m c :
  c <> 125 -> root_object stack = true ->
  inside_object (step_structure stack m c).
Proof.
  intros Hc H. unfold step_structure, start_value.
  destruct (N.eqb_spec c 125) as [|_]; [contradiction|].
  repeat case_match; try exact I; try exact H;
    try (apply close_array_inside; exact H);
    try (apply root_object_push; exact H);
    try discriminate.
Qed.

Lemma step_inside p c :
  c <> 125 -> inside_object p -> inside_object (step p c).
Proof.
  intros Hc Hp. destruct p as [stack m|v|]; [|contradiction|exact I].
  simpl in Hp.
  destruct m; try apply (step_structure_inside _ _ _ Hc Hp); unfold step.
  - unfold end_string. repeat case_match; try exact I; try exact Hp;
      try (apply push_value_inside; exact Hp).
    subst. eapply root_object_replace; [|exact Hp]. reflexivity.
  - repeat case_match; try exact I; exact Hp.
  - repeat case_match; try exact I; exact Hp.
  - destruct (step_number st a c); try exact I; try exact Hp.
    pose proof (push_value_inside stack (JNumber (number_of a)) Hp) as Hq.
    destruct (push_value stack (JNumber (number_of a))) as [stack' m'|v'|];
      [|contradiction|exact I].
    apply step_structure_inside; assumption.
  - repeat case_match; try exact I; try exact Hp;
      apply push_value_inside; exact Hp.
Qed.

Lemma run_inside p s :
  125 ∉ s -> inside_object p -> inside_object (run p s).
Proof.
  revert p. induction s as [|c s IH]; intros p Hs Hp; [exact Hp|].
  apply not_elem_of_cons in Hs as [Hc Hs].
  apply IH; [exact Hs|]. apply step_inside; [congruence|exact Hp].
Qed.

Lemma finish_inside p : inside_object p -> finish p = Throw syntax_error.
Proof.
  destruct p as [stack m|v|]; [|contradiction|reflexivity].
  simpl. intros H. destruct stack; [discriminate H|].
  destruct m; reflexivity.
Qed.

(** A text inside the braces of a root object does not parse as long as
    no closing brace comes. *)
Lemma unclosed_object_throws p s :
  125 ∉ s -> inside_object p -> finish (run p s) = Throw syntax_error.
Proof. intros Hs Hp. apply finish_inside, run_inside; assumption. Qed.

(** Only a state with one open frame, an object, accepts a closing brace
    as the end of the text. *)
Lemma brace_ends_object q v :
  literal_inv q -> finish (step q 125) = Ok v -> inside_object q.
Proof.
  intros Hq. destruct q as [stack m|v'|]; [|discriminate|discriminate].
  assert (Hclose : forall st, finish (close_object st) = Ok v ->
                              root_object st = true).
  { intros st. unfold close_object.
    destruct st as [|[items|props|props key] st]; try discriminate.
    destruct st as [|[items|props'|props' key] st]; try discriminate.
    reflexivity. }
  cbn [inside_object]. destruct m; unfold step.
  - unfold step_structure, start_value. simpl. discriminate.
  - unfold step_structure. simpl. destruct first; [apply Hclose|discriminate].
  - unfold step_structure. simpl. discriminate.
  - unfold step_structure. simpl. apply Hclose.
  - simpl. destruct stack; discriminate.
  - simpl. discriminate.
  - simpl. discriminate.
  - unfold step_number. simpl.
    destruct st; try discriminate.
    all: destruct stack as [|[items|props|props key] stack]; simpl push_value;
      try discriminate; cbv beta iota; unfold step_structure; simpl.
    all: try discriminate.
    all: destruct stack as [|[items'|props'|props' key'] stack];
      simpl; try discriminate; reflexivity.
  - destruct rest as [|d rest]; [discriminate|].
    simpl in Hq. apply andb_true_iff in Hq as [Hd _].
    destruct (N.eqb_spec 125 d) as [<-|]; [discriminate Hd|discriminate].
Qed.

(** A closing bracket leads into such a state only from inside a root
    object. *)
Lemma bracket_keeps_outside p :
  literal_inv p -> inside_object (step p 93) -> step p 93 <> PFail ->
  inside_object p.
Proof.
  intros Hp. destruct p as [stack m|v'|]; [|simpl; unfold after_done; simpl; tauto|tauto].
  assert (Hpush : forall st w, inside_object (push_value st w) ->
                               push_value st w <> PFail ->
                               root_object st = true).
  { intros st w. destruct st as [|[items|props|props key] st]; simpl; try tauto.
    - intros H _. eapply root_object_replace; [|exact H]. reflexivity.
    - intros H _. eapply root_object_replace; [|exact H]. reflexivity. }
  assert (Hclose : forall st, inside_object (close_array st) ->
                              close_array st <> PFail ->
                              root_object st = true).
  { intros st. unfold close_array.
    destruct st as [|[items|props|props key] st]; try tauto.
    intros H1 H2. pose proof (Hpush _ _ H1 H2) as H.
    apply root_object_push. exact H. }
  cbn [inside_object]. destruct m; unfold step.
  - unfold step_structure, start_value. simpl.
    destruct first; simpl; [apply Hclose|tauto].
  - unfold step_structure. simpl. tauto.
  - unfold step_structure. simpl. tauto.
  - unfold step_structure. simpl. apply Hclose.
  - simpl. tauto.
  - simpl. tauto.
  - simpl. tauto.
  - unfold step_number. simpl.
    destruct st; try tauto.
    all: destruct stack as [|[items|props|props key] stack]; simpl push_value;
      try tauto; cbv beta iota; unfold step_structure; simpl; try tauto.
    all: intros H1 H2; apply root_object_push; exact (Hpush _ _ H1 H2).
  - destruct rest as [|d rest]; [tauto|].
    simpl in Hp. apply andb_true_iff in Hp as [Hd _].
    destruct (N.eqb_spec 93 d) as [<-|]; [discriminate Hd|tauto].
Qed.

(** When a text closed with a bracket and a brace parses, the text
    itself, and any continuation of it without a closing brace, does
    not. *)
Lemma cut_text_throws (s dangling : jstr) (v : json) :
  JSON_parse (s ++ js "]}") = Ok v ->
  125 ∉ dangling ->
  JSON_parse (s ++ dangling) = Throw syntax_error.
Proof.
  unfold JSON_parse. change (js "]}") with ([93] ++ [125]).
  rewrite app_assoc, !run_snoc. intros Hv Hd.
  unfold run at 1. rewrite fold_left_app. fold (run initial s).
  fold (run (run initial s) dangling).
  apply unclosed_object_throws; [exact Hd|].
  assert (Hs : literal_inv (run initial s)) by (apply run_inv; exact I).
  apply bracket_keeps_outside; [exact Hs| |].
  - apply brace_ends_object with v; [apply step_inv; exact Hs|exact Hv].
  - intros E. rewrite E in Hv. discriminate Hv.
Qed.

End Unclosed.

Section Fences.

Lemma char_matches_backtick icase x : char_matches icase 96 x = (96 =? x).
Proof.
  destruct icase; [|reflexivity].
  unfold char_matches. change (canonicalize 96) with 96.
  unfold canonicalize.
  destruct (N.leb_spec 97 x), (N.leb_spec x 122); cbn [andb]; try reflexivity.
  destruct (N.eqb_spec 96 (x - 32)), (N.eqb_spec 96 x); try reflexivity; lia.
Qed.

Lemma exec_fence_none icase re t :
  re = re_fence \/ re = re_fence_json ->
  is_prefix (js "```") t = false -> exec_here icase re t = None.
Proof.
  intros Hre Ht. unfold exec_here.
  destruct t as [|a [|b [|c t]]].
  1-3: destruct Hre as [-> | ->]; simpl; rewrite ?char_matches_backtick;
    repeat case_match; reflexivity.
  change (js "```") with [96; 96; 96] in Ht. cbn [is_prefix] in Ht.
  destruct Hre as [-> | ->]; simpl; rewrite !char_matches_backtick;
    revert Ht; destruct (96 =? a), (96 =? b), (96 =? c); intros Ht;
    try reflexivity; cbn [andb] in Ht; discriminate Ht.
Qed.

Lemma replace_all_no_match icase re tpl s :
  (forall t, is_prefix (js "```") t = false -> exec_here icase re t = None) ->
  includes (js "```") s = false -> replace_all icase re tpl s = s.
Proof.
  intros Hre. unfold replace_all.
  induction s as [|c s IH]; intros Hs.
  - simpl. rewrite Hre by reflexivity. reflexivity.
  - simpl in Hs. apply orb_false_iff in Hs as [Hp Hs].
    cbn [replace_from]. rewrite (Hre (c :: s) Hp). rewrite (IH Hs). reflexivity.
Qed.

Lemma strip_markup_no_fence s :
  includes (js "```") s = false -> strip_markup s = trim s.
Proof.
  intros Hs. unfold strip_markup.
  rewrite (replace_all_no_match true re_fence_json); [|intros; apply exec_fence_none; auto|exact Hs].
  rewrite (replace_all_no_match false re_fence); [|intros; apply exec_fence_none; auto|exact Hs].
  reflexivity.
Qed.

End Fences.

Section Truncation.

Lemma lastIndexOf_from_absent c s i found :
  c ∉ s -> lastIndexOf_from c s i found = found.
Proof.
  revert i found. induction s as [|d s IH]; intros i found Hc; [reflexivity|].
  simpl. apply not_elem_of_cons in Hc as [Hd Hs].
  destruct (N.eqb_spec d c) as [->|_]; [contradiction|].
  apply IH, Hs.
Qed.

Lemma lastIndexOf_from_last c front rest i found :
  c ∉ rest ->
  lastIndexOf_from c (front ++ c :: rest) i found = (i + Z.of_nat (length front))%Z.
Proof.
  intros Hc. revert i found.
  induction front as [|d front IH]; intros i found; simpl.
  - rewrite N.eqb_refl. rewrite lastIndexOf_from_absent by exact Hc. lia.
  - rewrite IH. lia.
Qed.

(** The last occurrence is where the text splits into a part that ends
    with the unit and a rest without it. *)
Lemma lastIndexOf_last c front rest :
  c ∉ rest -> lastIndexOf c (front ++ c :: rest) = Z.of_nat (length front).
Proof. intros Hc. unfold lastIndexOf. rewrite lastIndexOf_from_last by exact Hc. lia. Qed.

Lemma substring0_through front c rest :
  substring0 (front ++ c :: rest) (Z.of_nat (length front) + 1) = front ++ [c].
Proof.
  unfold substring0.
  replace (Z.to_nat (Z.of_nat (length front) + 1)) with (length (front ++ [c])).
  - rewrite (cons_middle c front rest), app_assoc. apply take_app_length.
  - rewrite length_app. simpl. lia.
Qed.

Lemma get_set_prop_eq props k v : get_prop (set_prop props k v) k = Some v.
Proof.
  induction props as [|[k' v'] props IH]; simpl.
  - unfold jstr_eqb. rewrite bool_decide_eq_true_2 by reflexivity. reflexivity.
  - destruct (jstr_eqb k' k) eqn:E; simpl.
    + unfold jstr_eqb. rewrite bool_decide_eq_true_2 by reflexivity. reflexivity.
    + rewrite E. exact IH.
Qed.

Lemma get_set_prop_ne props k v k' :
  k <> k' -> get_prop (set_prop props k v) k' = get_prop props k'.
Proof.
  intros Hk. induction props as [|[k0 v0] props IH]; simpl.
  - unfold jstr_eqb. rewrite bool_decide_eq_false_2 by exact Hk. reflexivity.
  - destruct (jstr_eqb k0 k) eqn:E; simpl.
    + apply bool_decide_eq_true in E. subst k0.
      unfold jstr_eqb. rewrite !bool_decide_eq_false_2 by exact Hk. reflexivity.
    + destruct (jstr_eqb k0 k'); [reflexivity|exact IH].
Qed.

(** What [ensure_text] does to an object. *)
Lemma ensure_text_object props :
  exists props',
    ensure_text (JObject props) = Ok (JObject props') /\
    truthy (get_prop props' key_text) = true /\
    get_prop props' key_designUpdate = get_prop props key_designUpdate /\
    (truthy (get_prop props key_text) = true -> props' = props) /\
    (truthy (get_prop props key_text) = false ->
     get_prop props' key_text = Some (JString truncation_note)).
Proof.
  unfold ensure_text. destruct (truthy (get_prop props key_text)) eqn:Ht.
  - exists props. repeat split; auto. discriminate.
  - exists (set_prop props key_text (JString truncation_note)).
    split; [reflexivity|]. rewrite get_set_prop_eq.
    split; [reflexivity|]. split; [apply get_set_prop_ne; discriminate|].
    split; [discriminate|reflexivity].
Qed.

Lemma truncation_repair_split repaired index matched front dangling props :
  match_first re_designUpdate repaired = Some (index, matched) ->
  repaired = front ++ 125 :: dangling ->
  125 ∉ dangling ->
  (index + Z.of_nat (length matched) < Z.of_nat (length front))%Z ->
  JSON_parse (front ++ [125] ++ js "]}") = Ok (JObject props) ->
  truncation_repair repaired
  = (let* result := ensure_text (JObject props) in Ok (Some result))%result.
Proof.
  intros Hm -> Hd Hlt Hp. unfold truncation_repair. rewrite Hm.
  rewrite lastIndexOf_last by exact Hd.
  destruct (Z.gtb_spec (Z.of_nat (length front))
              (index + Z.of_nat (length matched))) as [_|Hle]; [|lia].
  rewrite substring0_through. rewrite <- app_assoc. rewrite Hp. reflexivity.
Qed.

End Truncation.

(** ** The search for the opening of the array *)

Section Opening.

(** *** The matcher on a literal and on a run of blanks *)

Lemma rmatch_RString_inv {R} (pat s : jstr) caps (k : jstr -> captures -> option R) x :
  pat <> [] ->
  rmatch false (RString pat) s caps k = Some x ->
  exists s', s = pat ++ s' /\ k s' caps = Some x.
Proof.
  revert s. induction pat as [|c pat IH]; intros s Hpat; [contradiction|].
  destruct pat as [|c' pat].
  - simpl. destruct s as [|d s]; [discriminate|].
    unfold char_matches. destruct (N.eqb_spec c d) as [->|]; [|discriminate].
    intros H. exists s. split; [reflexivity|exact H].
  - change (RString (c :: c' :: pat)) with (RSeq (RChar c) (RString (c' :: pat))).
    cbn [rmatch]. destruct s as [|d s]; [discriminate|].
    unfold char_matches. destruct (N.eqb_spec c d) as [->|]; [|discriminate].
    intros H. destruct (IH s ltac:(discriminate) H) as (s' & -> & Hk).
    exists s'. split; [reflexivity|exact Hk].
Qed.

Lemma rmatch_RString {R} (pat s' : jstr) caps (k : jstr -> captures -> option R) :
  pat <> [] ->
  rmatch false (RString pat) (pat ++ s') caps k = k s' caps.
Proof.
  induction pat as [|c pat IH]; intros Hpat; [contradiction|].
  destruct pat as [|c' pat].
  - simpl. unfold char_matches. rewrite N.eqb_refl. reflexivity.
  - change (RString (c :: c' :: pat)) with (RSeq (RChar c) (RString (c' :: pat))).
    cbn [rmatch app]. unfold char_matches. rewrite N.eqb_refl.
    apply IH. discriminate.
Qed.

Lemma star_greedy_inv {R} p (s : jstr) (k : jstr -> option R) x :
  star_greedy p s k = Some x ->
  exists ws rest, s = ws ++ rest /\ forallb p ws = true /\ k rest = Some x.
Proof.
  induction s as [|c s IH]; simpl.
  - intros H. exists [], []. auto.
  - destruct (p c) eqn:Hc.
    + destruct (star_greedy p s k) as [y|] eqn:Hs.
      * intros [= <-]. destruct (IH eq_refl) as (ws & rest & -> & Hws & Hk).
        exists (c :: ws), rest. simpl. rewrite Hc. auto.
      * intros H. exists [], (c :: s). auto.
    + intros H. exists [], (c :: s). auto.
Qed.

Lemma star_greedy_all {R} p (ws rest : jstr) (k : jstr -> option R) x :
  forallb p ws = true ->
  match rest with d :: _ => p d = false | [] => True end ->
  k rest = Some x ->
  star_greedy p (ws ++ rest) k = Some x.
Proof.
  intros Hws Hrest Hk. induction ws as [|c ws IH]; simpl.
  - destruct rest as [|d rest]; simpl; [exact Hk|].
    rewrite Hrest. exact Hk.
  - simpl in Hws. apply andb_true_iff in Hws as [Hc Hws].
    rewrite Hc, (IH Hws). reflexivity.
Qed.

(** A match of the pattern at the start of a text is an opening. *)
Lemma exec_designUpdate_inv (t : jstr) len caps :
  exec_here false re_designUpdate t = Some (len, caps) ->
  exists m tail,
    is_designUpdate_opening m /\ t = m ++ tail /\ len = length m.
Proof.
  unfold exec_here, re_designUpdate. cbn [rmatch]. intros H.
  apply rmatch_RString_inv in H as (s1 & -> & H); [|discriminate].
  apply star_greedy_inv in H as (ws1 & r1 & -> & Hws1 & H).
  destruct r1 as [|d1 r2]; [discriminate|].
  unfold char_matches in H.
  destruct (N.eqb_spec 58 d1) as [<-|]; [|discriminate].
  apply star_greedy_inv in H as (ws2 & r3 & -> & Hws2 & H).
  destruct r3 as [|d3 r4]; [discriminate|].
  destruct (N.eqb_spec 91 d3) as [<-|]; [|discriminate].
  injection H as <- <-.
  exists (jsq "'designUpdate'" ++ ws1 ++ [58] ++ ws2 ++ [91]), r4.
  split; [exists ws1, ws2; auto|].
  split; [rewrite <- !app_assoc; reflexivity|].
  rewrite !length_app. change (length (jsq "'designUpdate'")) with 14%nat.
  cbn [length]. rewrite !length_app. cbn [length]. lia.
Qed.

(** An opening at the start of a text is matched. *)
Lemma exec_designUpdate_opening (m tail : jstr) :
  is_designUpdate_opening m ->
  exec_here false re_designUpdate (m ++ tail) = Some (length m, []).
Proof.
  intros (ws1 & ws2 & Hws1 & Hws2 & ->).
  unfold exec_here, re_designUpdate. cbn [rmatch].
  rewrite <- !app_assoc. rewrite rmatch_RString by discriminate.
  erewrite star_greedy_all; [reflexivity|exact Hws1|reflexivity|].
  cbn [app]. unfold char_matches. rewrite N.eqb_refl.
  erewrite star_greedy_all; [reflexivity|exact Hws2|reflexivity|].
  cbn [app]. rewrite N.eqb_refl. f_equal. f_equal.
  rewrite !length_app. cbn [length]. rewrite !length_app. cbn [length]. lia.
Qed.

(** The search returns the leftmost match. *)
Lemma match_from_finds (r : regex) (pre t : jstr) (i : Z) len caps :
  exec_here false r t = Some (len, caps) ->
  exists (j len' : nat) caps',
    match_from r (pre ++ t) i
    = Some ((i + Z.of_nat j)%Z, take len' (drop j (pre ++ t))) /\
    (j <= length pre)%nat /\
    exec_here false r (drop j (pre ++ t)) = Some (len', caps').
Proof.
  intros Ht. revert i. induction pre as [|c pre IH]; intros i.
  - exists 0%nat, len, caps. simpl. rewrite drop_0.
    destruct t; simpl; rewrite Ht; repeat split; f_equal; f_equal; lia.
  - cbn [app match_from].
    destruct (exec_here false r (c :: pre ++ t)) as [[len0 caps0]|] eqn:E.
    + exists 0%nat, len0, caps0. rewrite drop_0.
      repeat split; [f_equal; f_equal; lia|simpl; lia|exact E].
    + destruct (IH (i + 1)%Z) as (j & len' & caps' & Hm & Hj & He).
      exists (S j), len', caps'. cbn [drop].
      repeat split; [rewrite Hm; f_equal; f_equal; lia|simpl; lia|exact He].
Qed.

Lemma opening_no_brace (m : jstr) : is_designUpdate_opening m -> 125 ∉ m.
Proof.
  intros (ws1 & ws2 & Hws1 & Hws2 & ->).
  assert (Hb : forall ws, forallb is_js_space ws = true -> 125 ∉ ws).
  { intros ws Hws Hin. rewrite forallb_forall in Hws.
    apply list_elem_of_In, Hws in Hin. discriminate Hin. }
  rewrite !not_elem_of_app. repeat split; auto.
  - vm_compute. intros H.
    repeat (apply elem_of_cons in H as [H|H]; [discriminate H|]). inversion H.
  - intros H. apply list_elem_of_singleton in H. discriminate H.
  - intros H. apply list_elem_of_singleton in H. discriminate H.
Qed.

Lemma opening_ends_with_bracket (m : jstr) :
  is_designUpdate_opening m -> exists m', m = m' ++ [91].
Proof.
  intros (ws1 & ws2 & _ & _ & ->).
  exists (jsq "'designUpdate'" ++ ws1 ++ [58] ++ ws2).
  rewrite <- !app_assoc. reflexivity.
Qed.

(** No text that ends with an opening bracket, a closing brace, a closing
    bracket and a closing brace parses. *)
Lemma bracket_brace_throws (s : jstr) :
  JSON_parse (s ++ [91; 125; 93; 125]) = Throw syntax_error.
Proof.
  unfold JSON_parse, run. rewrite fold_left_app. fold (run initial s).
  assert (Hs : literal_inv (run initial s)) by (apply run_inv; exact I).
  destruct (run initial s) as [stack m|v|]; [|reflexivity|reflexivity].
  destruct m.
  - reflexivity.
  - reflexivity.
  - reflexivity.
  - reflexivity.
  - simpl. destruct stack; reflexivity.
  - reflexivity.
  - reflexivity.
  - destruct st; try reflexivity;
      destruct stack as [|[items|props|props key] stack]; reflexivity.
  - destruct rest as [|d rest]; [reflexivity|].
    simpl in Hs. apply andb_true_iff in Hs as [Hd _].
    cbn [fold_left step].
    destruct (N.eqb_spec 91 d) as [<-|]; [discriminate Hd|reflexivity].
Qed.

(** The search finds an opening that ends before the end of the last
    complete shape. *)
Lemma opening_found (pre m body dangling : jstr) (v : json) :
  is_designUpdate_opening m ->
  JSON_parse (pre ++ m ++ body ++ [125] ++ js "]}") = Ok v ->
  exists index matched,
    match_first re_designUpdate (pre ++ m ++ body ++ 125 :: dangling)
    = Some (index, matched) /\
    (index + Z.of_nat (length matched) < Z.of_nat (length (pre ++ m ++ body)))%Z.
Proof.
  intros Hm Hv.
  pose proof (exec_designUpdate_opening m (body ++ 125 :: dangling) Hm) as Hex.
  destruct (match_from_finds re_designUpdate pre _ 0 _ _ Hex)
    as (j & len' & caps' & Hfound & Hj & He).
  set (s := pre ++ m ++ body ++ 125 :: dangling) in *.
  destruct (exec_designUpdate_inv _ _ _ He) as (m' & tail' & Hm' & Hdrop & ->).
  exists (Z.of_nat j), m'. split.
  { unfold match_first. rewrite Hfound, Hdrop, take_app_length.
    f_equal. }
  assert (Hlen : length (take j s) = j).
  { apply length_take_le. unfold s. rewrite length_app. lia. }
  assert (Hmlen : (0 < length m)%nat).
  { destruct Hm as (ws1 & ws2 & _ & _ & ->). rewrite length_app.
    change (length (jsq "'designUpdate'")) with 14%nat. lia. }
  assert (Hs : (take j s ++ m') ++ tail' = (pre ++ m ++ body) ++ 125 :: dangling).
  { rewrite <- app_assoc, <- Hdrop, take_drop. unfold s.
    rewrite <- !app_assoc. reflexivity. }
  assert (Hend : take j s ++ m' <> pre ++ m ++ body).
  { intros E. destruct (opening_ends_with_bracket m' Hm') as [m'' ->].
    rewrite app_assoc in E.
    assert (Hthrow : JSON_parse (pre ++ m ++ body ++ [125] ++ js "]}")
                     = Throw syntax_error).
    { replace (pre ++ m ++ body ++ [125] ++ js "]}")
        with ((take j s ++ m'') ++ [91; 125; 93; 125]);
        [apply bracket_brace_throws|].
      change [91; 125; 93; 125] with ([91] ++ [125] ++ js "]}").
      rewrite (app_assoc _ [91]), E. rewrite <- !app_assoc. reflexivity. }
    rewrite Hthrow in Hv. discriminate Hv. }
  apply app_eq_inv in Hs as [(k & Hk1 & Hk2)|(k & Hk1 & Hk2)].
  - destruct k as [|c k].
    + rewrite app_nil_r in Hk1. contradiction.
    + injection Hk2 as <- _.
      apply app_eq_inv in Hk1 as [(k2 & Hk3 & _)|(k2 & _ & Hk4)].
      * apply (f_equal length) in Hk3.
        rewrite Hlen, !length_app in Hk3. lia.
      * exfalso. apply (opening_no_brace m' Hm').
        rewrite Hk4. apply elem_of_app. right. apply list_elem_of_here.
  - destruct k as [|c k].
    + rewrite app_nil_r in Hk1. symmetry in Hk1. contradiction.
    + rewrite Hk1, !length_app, Hlen. simpl. lia.
Qed.

End Opening.

(** ** Well-formed answers *)

(** C5 fails as stated: the envelope is well formed, its text quotes a code
    fence, and the function returns an envelope with another text. *)
Lemma well_formed_answer_rewritten :
  JSON_parse Samples.answer_with_fence
  = Ok (JObject [(js "text", JString (js "Use ```json blocks```"))]) /\
  parse_model_output Samples.api_key Samples.answer_with_fence
  = Ok (JObject [(js "text", JString (js "Use  blocks"))]) /\
  parse_model_output Samples.api_key Samples.answer_with_fence
  <> JSON_parse Samples.answer_with_fence.
Proof.
  split; [vm_compute; reflexivity|].
  split; [vm_compute; reflexivity|].
  vm_compute. discriminate.
Qed.

(** C5, as the code has it: an answer that is well-formed JSON and holds no
    run of three backticks comes back as [JSON.parse] reads it. *)
Theorem well_formed_answer_unchanged (k : N) (key raw : jstr) (v : json) :
  includes (js "```") raw = false ->
  JSON_parse raw = Ok v ->
  parse_model_output (k :: key) raw = Ok v.
Proof.
  intros Hf Hv.
  assert (Hraw : raw <> []) by (intros ->; discriminate Hv).
  rewrite parse_model_output_nonempty by exact Hraw.
  destruct raw as [|c raw]; [contradiction|].
  unfold recover. rewrite (strip_markup_no_fence _ Hf).
  rewrite (JSON_parse_trim _ _ Hv). reflexivity.
Qed.

Lemma well_formed_answer_unchanged_witness :
  includes (js "```") Samples.answer_complete = false /\
  (exists v, JSON_parse Samples.answer_complete = Ok v) /\
  parse_model_output Samples.api_key Samples.answer_complete
  = JSON_parse Samples.answer_complete.
Proof.
  split; [vm_compute; reflexivity|].
  destruct (JSON_parse Samples.answer_complete) as [v|e] eqn:Hv;
    [|vm_compute in Hv; discriminate Hv].
  split; [exists v; reflexivity|].
  apply (well_formed_answer_unchanged 107 (js "ey") Samples.answer_complete v).
  - vm_compute; reflexivity.
  - exact Hv.
Defined.

(** ** Truncated answers *)

(** Whatever tier 3 recovers is an object with a truthy [text]. *)
Lemma truncation_repair_object (repaired : jstr) (v : json) :
  truncation_repair repaired = Ok (Some v) ->
  exists props, v = JObject props /\ truthy (get_prop props key_text) = true.
Proof.
  unfold truncation_repair.
  destruct (match_first re_designUpdate repaired) as [[index matched]|];
    [|discriminate].
  destruct (_ >? _)%Z; [|discriminate].
  change (js "]}") with ([93] ++ [125]). rewrite app_assoc.
  destruct (JSON_parse _) as [r|e] eqn:Hr; [|discriminate].
  destruct (JSON_parse_brace_object _ _ Hr) as [props ->].
  destruct (ensure_text_object props) as (props' & He & Ht & _).
  cbn [bind]. rewrite He. cbn [bind]. intros [= <-]. eauto.
Qed.

(** C4 fails as stated: the answer is cut after two complete shapes, in a
    third one whose name holds a closing brace, and the function returns
    the fallback, whose [designUpdate] is empty. *)
Lemma truncated_answer_loses_shapes :
  (exists props s1 s2,
      JSON_parse (Samples.two_shapes ++ js "]}") = Ok (JObject props) /\
      get_prop props key_designUpdate = Some (JArray [s1; s2])) /\
  throws (JSON_parse (Samples.two_shapes ++ Samples.dangling_brace)) /\
  parse_model_output Samples.api_key (Samples.two_shapes ++ Samples.dangling_brace)
  = Ok fallback_response /\
  get_prop [(key_text, JString fallback_text); (key_designUpdate, JArray [])]
           key_designUpdate
  = Some (JArray []).
Proof.
  split; [do 3 eexists; split; vm_compute; reflexivity|].
  split; [eexists; vm_compute; reflexivity|].
  split; vm_compute; reflexivity.
Qed.

(** The answer that tier 3 gives on a text that was cut after a closing
    brace. *)
Lemma recover_cut_text (k : N) (key raw pre opening body dangling : jstr)
      (props : list (jstr * json)) :
  raw <> [] ->
  throws (tier1 raw) ->
  syntax_repair (strip_markup raw) = pre ++ opening ++ body ++ 125 :: dangling ->
  is_designUpdate_opening opening ->
  125 ∉ dangling ->
  JSON_parse (pre ++ opening ++ body ++ [125] ++ js "]}") = Ok (JObject props) ->
  parse_model_output (k :: key) raw = ensure_text (JObject props).
Proof.
  intros Hraw [e1 H1] Hsplit Hopen Hd Hp.
  destruct (opening_found pre opening body dangling _ Hopen Hp)
    as (index & matched & Hm & Hlt).
  rewrite <- Hsplit in Hm.
  assert (Hsplit' : syntax_repair (strip_markup raw)
                    = (pre ++ opening ++ body) ++ 125 :: dangling)
    by (rewrite Hsplit, <- !app_assoc; reflexivity).
  assert (Hp' : JSON_parse ((pre ++ opening ++ body) ++ [125] ++ js "]}")
                = Ok (JObject props))
    by (rewrite <- !app_assoc; exact Hp).
  assert (H2 : tier2 raw = Throw syntax_error).
  { unfold tier2. rewrite Hsplit'.
    rewrite (cons_middle 125 _ dangling), app_assoc.
    apply cut_text_throws with (JObject props); [|exact Hd].
    rewrite <- app_assoc. exact Hp'. }
  rewrite parse_model_output_nonempty by exact Hraw.
  destruct raw as [|c raw]; [contradiction|].
  rewrite recover_tiers, H1, H2. unfold tier3.
  rewrite (truncation_repair_split _ _ _ _ _ _ Hm Hsplit' Hd Hlt Hp').
  destruct (ensure_text_object props) as (props' & -> & _). reflexivity.
Qed.

(** C4, as the code has it: when direct parsing fails and the repaired text
    is made of a part that holds an opening of the [designUpdate] array, a
    body that ends with a closing brace, and a dangling rest without any
    closing brace, and the text up to that brace, closed with a bracket and
    a brace, is an object whose [designUpdate] holds N shapes, the function
    returns that object with the same N shapes and a truthy [text]: its
    own, or the note about the truncation when it had none. *)
Theorem truncation_repair_recovers (k : N)
        (key raw pre opening body dangling : jstr)
        (props : list (jstr * json)) (items : list json) :
  raw <> [] ->
  throws (tier1 raw) ->
  syntax_repair (strip_markup raw) = pre ++ opening ++ body ++ 125 :: dangling ->
  is_designUpdate_opening opening ->
  125 ∉ dangling ->
  JSON_parse (pre ++ opening ++ body ++ [125] ++ js "]}") = Ok (JObject props) ->
  get_prop props key_designUpdate = Some (JArray items) ->
  exists props',
    parse_model_output (k :: key) raw = Ok (JObject props') /\
    get_prop props' key_designUpdate = Some (JArray items) /\
    truthy (get_prop props' key_text) = true /\
    (truthy (get_prop props key_text) = true -> props' = props) /\
    (truthy (get_prop props key_text) = false ->
     get_prop props' key_text = Some (JString truncation_note)).
Proof.
  intros Hraw H1 Hsplit Hopen Hd Hp Hitems.
  destruct (ensure_text_object props) as (props' & He & Ht & Hdu & Hsame & Hnote).
  exists props'.
  rewrite (recover_cut_text k key raw pre opening body dangling props
             Hraw H1 Hsplit Hopen Hd Hp).
  split; [exact He|]. rewrite Hdu. auto.
Qed.

Lemma truncation_repair_recovers_witness :
  exists props s1 s2,
    parse_model_output Samples.api_key Samples.answer_truncated
    = Ok (JObject props) /\
    get_prop props key_designUpdate = Some (JArray [s1; s2]) /\
    truthy (get_prop props key_text) = true.
Proof.
  destruct (JSON_parse (Samples.two_shapes ++ js "]}")) as [[| | | | |props]|e] eqn:Hp;
    try (vm_compute in Hp; discriminate Hp).
  destruct (get_prop props key_designUpdate) as [[| | | |[|s1 [|s2 [|s3 items]]]|]|] eqn:Hi;
    try (vm_compute in Hp; injection Hp as <-; vm_compute in Hi; discriminate Hi).
  destruct (truncation_repair_recovers 107 (js "ey") Samples.answer_truncated
              (jsq "{'text':'Three boxes',") (jsq "'designUpdate':[")
              (removelast (drop 38 Samples.two_shapes)) Samples.dangling_plain
              props [s1; s2])
    as (props' & H1 & H2 & H3 & _).
  - vm_compute. discriminate.
  - eexists. vm_compute. reflexivity.
  - vm_compute. reflexivity.
  - exists [], []. repeat split.
  - vm_compute. intros H.
    repeat (apply elem_of_cons in H as [H|H]; [discriminate H|]).
    inversion H.
  - exact Hp.
  - exact Hi.
  - exists props', s1, s2. auto.
Defined.

(** The same when the rewrites of tier 2 leave the text as it is, as they
    do on an answer that was cut and is otherwise well formed: then the
    failure of the direct parse follows too. *)
Corollary truncation_repair_of_cut_text (k : N)
          (key raw pre opening body dangling : jstr)
          (props : list (jstr * json)) (items : list json) :
  strip_markup raw = pre ++ opening ++ body ++ 125 :: dangling ->
  syntax_repair (strip_markup raw) = strip_markup raw ->
  raw <> [] ->
  is_designUpdate_opening opening ->
  125 ∉ dangling ->
  JSON_parse (pre ++ opening ++ body ++ [125] ++ js "]}") = Ok (JObject props) ->
  get_prop props key_designUpdate = Some (JArray items) ->
  exists props',
    parse_model_output (k :: key) raw = Ok (JObject props') /\
    get_prop props' key_designUpdate = Some (JArray items) /\
    truthy (get_prop props' key_text) = true.
Proof.
  intros Hsplit Hsame Hraw Hopen Hd Hp Hitems.
  assert (H1 : throws (tier1 raw)).
  { exists syntax_error. unfold tier1. rewrite Hsplit.
    replace (pre ++ opening ++ body ++ 125 :: dangling)
      with ((pre ++ opening ++ body ++ [125]) ++ dangling)
      by (rewrite <- !app_assoc; reflexivity).
    apply cut_text_throws with (JObject props); [|exact Hd].
    rewrite <- !app_assoc. exact Hp. }
  rewrite <- Hsame in Hsplit.
  destruct (ensure_text_object props) as (props' & He & Ht & Hdu & _).
  exists props'.
  rewrite (recover_cut_text k key raw pre opening body dangling props
             Hraw H1 Hsplit Hopen Hd Hp).
  rewrite Hdu. auto.
Qed.

(** The rewrite of bare keys also applies inside a string: a text with a
    comma, a word and a colon is broken by it, and the cut answer ends in
    the fallback. *)
Remark truncated_answer_text_rewritten :
  includes (jsq ", 'note':") (syntax_repair (strip_markup Samples.answer_truncated_colon))
  = true /\
  parse_model_output Samples.api_key Samples.answer_truncated_colon
  = Ok fallback_response.
Proof. split; vm_compute; reflexivity. Qed.

(** The answer cut in its third shape keeps two shapes and its text; the
    one without a text gets the note. *)
Example truncated_answer_two_shapes :
  exists s1 s2,
    parse_model_output Samples.api_key Samples.answer_truncated
    = Ok (JObject [(js "text", JString (js "Three boxes"));
                   (js "designUpdate", JArray [s1; s2])]).
Proof. do 2 eexists. vm_compute. reflexivity. Qed.

Example truncated_answer_without_text :
  exists s1,
    parse_model_output Samples.api_key Samples.answer_truncated_no_text
    = Ok (JObject [(js "designUpdate", JArray [s1]);
                   (js "text", JString truncation_note)]).
Proof. eexists. vm_compute. reflexivity. Qed.

(** A response read through the whole chain: the empty [designUpdate]
    empties the scene, as C3 says. *)
Example empty_designUpdate_end_to_end :
  exists r,
    (v ← match parse_model_output Samples.api_key
                 (jsq "{'text':'Cleared','designUpdate':[]}") with
         | Ok v => Some v
         | Throw _ => None
         end;
     as_GeminiResponse v) = Some r /\
    handleSendMessage Samples.editor0 Samples.editor0 r
    = mkEditor [] [[]; [Samples.cube "a" None]] [].
Proof. eexists. split; vm_compute; reflexivity. Qed.

(** * Further properties

    Properties of the handlers around the ones above: the history as a
    timeline, grouping, presets, the clipboard, clicks, the projects, and
    more on the cleanup of the answer. *)

Import Projects Tools Workbench Constants.

(** ** Undo and redo as moves on a timeline *)

(** X1: an undo directly after a redo gives back the whole editor state
    (shapes and both stacks) as it was before the redo, whenever there was
    something to redo. *)
Theorem undo_after_redo (st : Editor) :
  futureStates st <> [] -> undo_key (redo_key st) = st.
Proof.
  destruct st as [sh p [|next f]]; intros H; [exfalso; apply H; reflexivity|].
  rewrite redo_key_pop. apply undo_key_push.
Qed.

Lemma undo_after_redo_witness :
  futureStates Samples.editor0 <> [] /\
  undo_key (redo_key Samples.editor0) = Samples.editor0.
Proof.
  split; [discriminate|]. apply undo_after_redo. discriminate.
Defined.

(** X2: undo and redo only move along a timeline: the undo stack, the current
    shapes and the redo stack, read in this order, are the same sequence
    of scenes before and after an undo or a redo; an undo shortens the
    undo stack by one (not below zero), a redo the redo stack. *)
Theorem history_timeline_invariant (st : Editor) :
  pastStates (undo_key st) ++ shapes (undo_key st) :: futureStates (undo_key st)
  = pastStates st ++ shapes st :: futureStates st /\
  pastStates (redo_key st) ++ shapes (redo_key st) :: futureStates (redo_key st)
  = pastStates st ++ shapes st :: futureStates st /\
  length (pastStates (undo_key st)) = Nat.pred (length (pastStates st)) /\
  length (futureStates (redo_key st)) = Nat.pred (length (futureStates st)).
Proof.
  destruct st as [sh p f]. repeat split.
  - destruct p as [|s0 p] using rev_ind; [reflexivity|].
    rewrite undo_key_push. simpl. rewrite <- app_assoc. reflexivity.
  - destruct f as [|next f]; [reflexivity|].
    rewrite redo_key_pop. simpl. rewrite <- app_assoc. reflexivity.
  - apply undo_key_past.
  - destruct f as [|next f]; [reflexivity|].
    rewrite redo_key_pop. reflexivity.
Qed.

(** X3: updating one shape is the batch update with that shape as its only
    patch: the two handlers give the same editor state. *)
Theorem handleShapeUpdate_as_batch (rendered current : Editor) (s : Shape) :
  handleShapeUpdate rendered current s = handleShapesUpdate rendered current [s].
Proof.
  unfold handleShapeUpdate, handleShapesUpdate, setShapes. f_equal.
  apply map_ext. intros s0.
  unfold updateMap_of. simpl. unfold jstr_eqb.
  destruct (decide (id s0 = id s)) as [E|E].
  - rewrite bool_decide_eq_true_2 by assumption.
    rewrite E, lookup_insert_eq. reflexivity.
  - rewrite bool_decide_eq_false_2 by assumption.
    rewrite lookup_insert_ne by congruence. reflexivity.
Qed.

(** ** Updates of the selected shapes *)

Section Selected.

Variable F : Shape -> Shape.
Hypothesis F_id : forall s, id (F s) = id s.
Variable g : Shape -> bool.

Lemma patches_of_absent_id (l : list Shape) (k : jstr) :
  k ∉ map id l ->
  filter (fun p => id p = k) (map F (List.filter g l)) = [].
Proof.
  induction l as [|a l IH]; intros Hk; [reflexivity|].
  simpl in Hk. apply not_elem_of_cons in Hk as [Hka Hk].
  simpl. destruct (g a); [|exact (IH Hk)].
  simpl. rewrite filter_cons_False by (rewrite F_id; congruence).
  exact (IH Hk).
Qed.

Lemma patches_of_id (l : list Shape) (s : Shape) :
  NoDup (map id l) -> s ∈ l ->
  filter (fun p => id p = id s) (map F (List.filter g l))
  = if g s then [F s] else [].
Proof.
  induction l as [|a l IH]; intros Hnd Hs; [inversion Hs|].
  simpl in Hnd. apply NoDup_cons in Hnd as [Ha Hnd].
  apply elem_of_cons in Hs as [->|Hs].
  - simpl. destruct (g a).
    + simpl. rewrite filter_cons_True by apply F_id.
      rewrite patches_of_absent_id by assumption. reflexivity.
    + apply patches_of_absent_id. assumption.
  - assert (id a <> id s) as Hne.
    { intros E. apply Ha. rewrite E. apply list_elem_of_fmap. exists s. split; [reflexivity|exact Hs]. }
    simpl. destruct (g a); [|exact (IH Hnd Hs)].
    simpl. rewrite filter_cons_False by (rewrite F_id; assumption).
    exact (IH Hnd Hs).
Qed.

(** A batch update with the patches [F s] of the shapes that [g] picks:
    with unique ids every picked shape is replaced by its own patch. *)
Lemma handleShapesUpdate_picked (rendered current : Editor) :
  NoDup (map id (shapes current)) ->
  shapes (handleShapesUpdate rendered current
            (map F (List.filter g (shapes current))))
  = map (fun s => if g s then F s else s) (shapes current).
Proof.
  intros Hnd. simpl. apply map_ext_in. intros s Hs.
  apply list_elem_of_In in Hs.
  rewrite updateMap_of_lookup, patches_of_id by assumption.
  destruct (g s); reflexivity.
Qed.

End Selected.

Lemma with_groupId_id s g : id (with_groupId s g) = id s.
Proof. reflexivity. Qed.

Lemma group_shapes (st : Editor) (sel : list jstr) (ts : jstr) :
  NoDup (map id (shapes st)) ->
  (2 <= length sel)%nat ->
  shapes (perform_on st st (Group sel ts))
  = map (fun s => if array_includes sel (id s)
                  then with_groupId s (Some (js "group-" ++ ts)) else s)
        (shapes st).
Proof.
  intros Hnd Hlen. unfold perform_on, handleGroup.
  destruct (Nat.ltb_spec (length sel) 2) as [Hlt|_]; [lia|].
  apply (handleShapesUpdate_picked
           (fun s => with_groupId s (Some (js "group-" ++ ts)))
           (fun s => eq_refl)
           (fun s => array_includes sel (id s)) st st Hnd).
Qed.

Lemma ungroup_shapes (st : Editor) (sel : list jstr) :
  NoDup (map id (shapes st)) ->
  (1 <= length sel)%nat ->
  shapes (perform_on st st (Ungroup sel))
  = map (fun s => if array_includes sel (id s) then with_groupId s None else s)
        (shapes st).
Proof.
  intros Hnd Hlen. unfold perform_on, handleUngroup.
  destruct (Nat.eqb_spec (length sel) 0) as [Hlt|_]; [lia|].
  apply (handleShapesUpdate_picked
           (fun s => with_groupId s None) (fun s => eq_refl)
           (fun s => array_includes sel (id s)) st st Hnd).
Qed.

(** X4: in a scene whose shapes have distinct ids, grouping a selection of two
    or more ids gives exactly the shapes with a selected id the new group
    id [group-] followed by the timestamp, and ungrouping takes their
    group id away; no other property and no other shape changes, and the
    order is kept. *)
Theorem group_changes_only_groupId (st : Editor) (sel : list jstr) (ts : jstr) :
  NoDup (map id (shapes st)) ->
  (2 <= length sel)%nat ->
  shapes (perform_on st st (Group sel ts))
  = map (fun s => if array_includes sel (id s)
                  then with_groupId s (Some (js "group-" ++ ts)) else s)
        (shapes st) /\
  shapes (perform_on st st (Ungroup sel))
  = map (fun s => if array_includes sel (id s) then with_groupId s None else s)
        (shapes st).
Proof.
  intros Hnd Hlen. split.
  - apply group_shapes; assumption.
  - apply ungroup_shapes; [assumption|lia].
Qed.

Lemma group_changes_only_groupId_witness :
  let st := mkEditor Samples.scene3 [] [] in
  shapes (perform_on st st (Group [js "b"; js "c"] (js "17")))
  = [Samples.cube "a" (Some (js "g1"));
     Samples.cube "b" (Some (js "group-17"));
     Samples.cube "c" (Some (js "group-17"))] /\
  shapes (perform_on st st (Ungroup [js "b"; js "c"]))
  = [Samples.cube "a" (Some (js "g1")); Samples.cube "b" None; Samples.cube "c" None].
Proof.
  intros st.
  assert (NoDup (map id (shapes st))) as Hnd.
  { vm_compute. repeat (apply NoDup_cons; split; [intros H; repeat (apply elem_of_cons in H as [H|H]; [discriminate|]); inversion H|]). apply NoDup_nil. exact I. }
  destruct (group_changes_only_groupId st [js "b"; js "c"] (js "17") Hnd) as [H1 H2];
    [simpl; lia|].
  split; [rewrite H1|rewrite H2]; vm_compute; reflexivity.
Defined.

Lemma with_groupId_same s : with_groupId s (groupId s) = s.
Proof. destruct s; reflexivity. Qed.

(** X5: in a scene with distinct ids, grouping shapes that had no group and
    then ungrouping the same selection gives back the shape list as it
    was. *)
Theorem ungroup_after_group (st : Editor) (sel : list jstr) (ts : jstr) :
  NoDup (map id (shapes st)) ->
  (2 <= length sel)%nat ->
  (forall s, s ∈ shapes st -> id s ∈ sel -> groupId s = None) ->
  let grouped := perform_on st st (Group sel ts) in
  shapes (perform_on grouped grouped (Ungroup sel)) = shapes st.
Proof.
  intros Hnd Hlen Hfree grouped.
  assert (shapes grouped
          = map (fun s => if array_includes sel (id s)
                          then with_groupId s (Some (js "group-" ++ ts)) else s)
                (shapes st)) as Hg by (apply group_shapes; assumption).
  rewrite ungroup_shapes; [|rewrite Hg, map_map|lia].
  - rewrite Hg, map_map.
    rewrite <- (map_id (shapes st)) at 2.
    apply map_ext_in. intros s Hs. apply list_elem_of_In in Hs.
    destruct (array_includes sel (id s)) eqn:E.
    + rewrite with_groupId_id, E.
      apply array_includes_elem_of in E.
      rewrite <- (with_groupId_same s) at 2.
      rewrite (Hfree s Hs E). reflexivity.
    + rewrite E. reflexivity.
  - erewrite map_ext; [exact Hnd|].
    intros s. simpl. destruct (array_includes sel (id s)); reflexivity.
Qed.

Lemma ungroup_after_group_witness :
  let st := mkEditor [Samples.cube "a" (Some (js "g1")); Samples.cube "b" None;
                      Samples.cube "c" None] [] [] in
  let grouped := perform_on st st (Group [js "b"; js "c"] (js "17")) in
  shapes grouped <> shapes st /\
  shapes (perform_on grouped grouped (Ungroup [js "b"; js "c"])) = shapes st.
Proof.
  intros st grouped. split; [vm_compute; discriminate|].
  apply ungroup_after_group.
  - apply (bool_decide_unpack _). vm_compute. reflexivity.
  - simpl. lia.
  - intros s Hs Hsel. simpl in Hs.
    repeat (apply elem_of_cons in Hs as [->|Hs]); try reflexivity.
    + exfalso. revert Hsel. apply (bool_decide_unpack _). vm_compute. reflexivity.
    + inversion Hs.
Defined.

(** X6: after grouping (distinct ids, a group id that no shape carries yet), a
    click without shift on any member of the new group selects exactly the
    shapes that were grouped, in the order of the scene. *)
Theorem group_then_click {point : Type} (st : Editor) (sel : list jstr)
        (ts : jstr) (v : Viewer point) (e_point : point) (shape : Shape) :
  NoDup (map id (shapes st)) ->
  (2 <= length sel)%nat ->
  (forall s, s ∈ shapes st -> groupId s <> Some (js "group-" ++ ts)) ->
  toolMode v = select ->
  shape ∈ shapes (perform_on st st (Group sel ts)) ->
  id shape ∈ sel ->
  selectedIds (handleShapeSelect (shapes (perform_on st st (Group sel ts)))
                                 v false e_point shape)
  = map id (List.filter (fun s => array_includes sel (id s)) (shapes st)).
Proof.
  intros Hnd Hlen Hnew Hmode Hin Hsel.
  rewrite group_shapes in * by assumption.
  apply list_elem_of_fmap in Hin as (s0 & -> & Hs0).
  assert (array_includes sel (id s0) = true) as Es0.
  { apply array_includes_elem_of.
    destruct (array_includes sel (id s0)) eqn:E; [|exact Hsel].
    apply array_includes_elem_of. exact E. }
  rewrite Es0 in *.
  unfold handleShapeSelect. rewrite Hmode.
  unfold has_groupId, same_groupId. cbn [groupId with_groupId app js map list_ascii_of_string].
  cbn [selectedIds setSelectedIds].
  clear Hs0 Hnd. induction (shapes st) as [|a l IH]; [reflexivity|].
  cbn [map List.filter].
  assert (forall s, s ∈ l -> groupId s <> Some (js "group-" ++ ts)) as Hl
      by (intros s Hs; apply Hnew; right; exact Hs).
  destruct (array_includes sel (id a)) eqn:Ea.
  - cbn [groupId with_groupId]. rewrite bool_decide_eq_true_2 by reflexivity.
    cbn [map]. rewrite with_groupId_id. f_equal. exact (IH Hl).
  - rewrite bool_decide_eq_false_2 by (apply Hnew; left).
    exact (IH Hl).
Qed.

(** ** Material presets and the clipboard *)

Lemma choosePreset_shapes {point : Type} (preset : MaterialPreset)
      (w : Workbench point) :
  NoDup (map id (shapes (scene w))) ->
  shapes (scene (choosePreset preset w))
  = map (fun s => if (0 <? length (selectedIds (viewer w)))%nat
                     && array_includes (selectedIds (viewer w)) (id s)
                  then with_material s preset else s)
        (shapes (scene w)).
Proof.
  intros Hnd. unfold choosePreset.
  destruct (0 <? length (selectedIds (viewer w)))%nat.
  - cbn [scene andb]. unfold applyMaterialPreset.
    apply (handleShapesUpdate_picked
             (fun s => with_material s preset) (fun s => eq_refl)
             (fun s => array_includes (selectedIds (viewer w)) (id s))
             (scene w) (scene w) Hnd).
  - cbn [andb]. symmetry. apply map_id.
Qed.

Lemma choosePreset_viewer {point : Type} (preset : MaterialPreset)
      (w : Workbench point) :
  viewer (choosePreset preset w) = viewer w.
Proof. unfold choosePreset. case_match; reflexivity. Qed.

(** X7: in a scene with distinct ids, a material preset chosen after another
    one leaves no trace of the first: the shapes are the same as when only
    the second is chosen (so a preset without glow removes the glow of an
    earlier one); a preset keeps id, type, category, group, position,
    rotation, scale, args, name and visibility of every shape, and keeps
    the shapes that are not selected. *)
Theorem preset_last_wins {point : Type} (first second : MaterialPreset)
        (w : Workbench point) :
  NoDup (map id (shapes (scene w))) ->
  shapes (scene (choosePreset second (choosePreset first w)))
  = shapes (scene (choosePreset second w)) /\
  map (fun s => (id s, type s, category s, groupId s, position s, rotation s,
                 scale s, args s, name s, visible s))
      (shapes (scene (choosePreset second w)))
  = map (fun s => (id s, type s, category s, groupId s, position s, rotation s,
                   scale s, args s, name s, visible s))
        (shapes (scene w)) /\
  forall s, s ∈ shapes (scene w) -> id s ∉ selectedIds (viewer w) ->
            s ∈ shapes (scene (choosePreset second w)).
Proof.
  intros Hnd. repeat split.
  - rewrite (choosePreset_shapes second (choosePreset first w)).
    + rewrite choosePreset_viewer, !choosePreset_shapes by assumption.
      rewrite map_map. apply map_ext. intros s.
      destruct ((0 <? length (selectedIds (viewer w)))%nat
                && array_includes (selectedIds (viewer w)) (id s)) eqn:E.
      * cbn [id with_material]. rewrite E. reflexivity.
      * rewrite E. reflexivity.
    + rewrite choosePreset_shapes, map_map by assumption.
      erewrite map_ext; [exact Hnd|].
      intros s. simpl. case_match; reflexivity.
  - rewrite choosePreset_shapes, map_map by assumption.
    apply map_ext. intros s. case_match; reflexivity.
  - intros s Hs Hsel. rewrite choosePreset_shapes by assumption.
    apply list_elem_of_fmap. exists s. split; [|exact Hs].
    destruct (array_includes (selectedIds (viewer w)) (id s)) eqn:E.
    + apply array_includes_elem_of in E. contradiction.
    + rewrite andb_false_r. reflexivity.
Qed.

Lemma add_all_spec (rendered current : Editor) (l : list Shape) :
  l <> [] ->
  add_all rendered current l
  = mkEditor (shapes current ++ l)
             (pastStates current ++ replicate (length l) (shapes rendered)) [].
Proof.
  unfold add_all. revert current.
  induction l as [|a l IH]; intros current Hl; [congruence|].
  destruct l as [|b l].
  - reflexivity.
  - change (fold_left _ (a :: b :: l) current)
      with (fold_left (fun c s => handleAddShape rendered c s) (b :: l)
                      (handleAddShape rendered current a)).
    rewrite IH by discriminate.
    cbn [shapes pastStates handleAddShape pushToHistory setShapes setPastStates
         setFutureStates].
    rewrite <- !app_assoc. reflexivity.
Qed.

Lemma undo_key_replicate (n m : nat) (now before : list Shape)
      (p f : list (list Shape)) :
  Nat.iter (S n) undo_key (mkEditor now (p ++ replicate (S n + m) before) f)
  = mkEditor before (p ++ replicate m before) (replicate n before ++ now :: f).
Proof.
  revert m. induction n as [|n IH]; intros m.
  - cbn [Nat.iter nat_rect Nat.add]. rewrite replicate_S_end, app_assoc.
    apply undo_key_push.
  - change (Nat.iter (S (S n)) undo_key ?x) with (undo_key (Nat.iter (S n) undo_key x)).
    replace (S (S n) + m)%nat with (S n + S m)%nat by lia.
    rewrite IH. rewrite replicate_S_end, app_assoc.
    rewrite undo_key_push. reflexivity.
Qed.

Lemma imap_pasted_ids add (newId : nat -> jstr) (l : list Shape) :
  map id (imap (fun i s => pasted add s (newId i)) l)
  = map newId (seq 0 (length l)).
Proof.
  revert newId. induction l as [|a l IH]; intros newId; [reflexivity|].
  cbn [imap map length seq]. f_equal.
  - unfold pasted. destruct (position a) as [[x y] z]. reflexivity.
  - rewrite <- seq_shift, map_map. apply (IH (fun i => newId (S i))).
Qed.

Lemma paste_clipboard_nonempty {point : Type} (add : number -> number -> number)
      (newId : nat -> jstr) (w : Workbench point) :
  clipboard w <> [] ->
  paste_clipboard add newId w
  = mkWorkbench
      (mkEditor (shapes (scene w)
                 ++ imap (fun i s => pasted add s (newId i)) (clipboard w))
                (pastStates (scene w)
                 ++ replicate (length (clipboard w)) (shapes (scene w))) [])
      (setSelectedIds (fun _ => map newId (seq 0 (length (clipboard w)))) (viewer w))
      (clipboard w).
Proof.
  intros Hc. unfold paste_clipboard, handlePaste.
  destruct (Nat.eqb_spec (length (clipboard w)) 0) as [E|_].
  { destruct (clipboard w); [congruence|discriminate]. }
  rewrite add_all_spec.
  - rewrite length_imap, imap_pasted_ids. reflexivity.
  - intros E. apply (f_equal length) in E. rewrite length_imap in E.
    destruct (clipboard w); [congruence|discriminate].
Qed.

(** X8: pasting a clipboard of k shapes appends the k copies at the end of the
    scene and selects them, empties the redo stack, and pushes the scene
    before the paste k times on the undo stack: the first undo removes all
    the copies at once, and each of the next k-1 undos leaves the shapes
    as they are. *)
Theorem paste_is_one_undo {point : Type} (add : number -> number -> number)
        (newId : nat -> jstr) (w : Workbench point) :
  clipboard w <> [] ->
  let newShapes := imap (fun i s => pasted add s (newId i)) (clipboard w) in
  let w' := paste_clipboard add newId w in
  shapes (scene w') = shapes (scene w) ++ newShapes /\
  pastStates (scene w')
  = pastStates (scene w) ++ replicate (length (clipboard w)) (shapes (scene w)) /\
  futureStates (scene w') = [] /\
  selectedIds (viewer w') = map newId (seq 0 (length (clipboard w))) /\
  forall n, (1 <= n <= length (clipboard w))%nat ->
            shapes (Nat.iter n undo_key (scene w')) = shapes (scene w).
Proof.
  intros Hc newShapes w'. unfold w'.
  rewrite paste_clipboard_nonempty by assumption.
  cbn [scene viewer shapes pastStates futureStates selectedIds setSelectedIds].
  repeat split.
  intros n [Hn1 Hn2].
  destruct n as [|n]; [lia|].
  replace (length (clipboard w)) with (S n + (length (clipboard w) - S n))%nat by lia.
  rewrite undo_key_replicate. reflexivity.
Qed.

(** X9: copy and then paste, with a selection that names at least one shape of
    the scene: the clipboard holds the selected shapes in scene order, the
    scene gets one copy of each at its end, the copies are selected, and
    each copy has type, scale, rotation, color and args of its original. *)
Theorem copy_then_paste {point : Type} (add : number -> number -> number)
        (newId : nat -> jstr) (w : Workbench point) (s : Shape) :
  s ∈ shapes (scene w) ->
  id s ∈ selectedIds (viewer w) ->
  let selected :=
    List.filter (fun s => array_includes (selectedIds (viewer w)) (id s))
                (shapes (scene w)) in
  let w' := paste_clipboard add newId (copy_selection w) in
  clipboard w' = selected /\
  shapes (scene w')
  = shapes (scene w) ++ imap (fun i s => pasted add s (newId i)) selected /\
  selectedIds (viewer w') = map newId (seq 0 (length selected)) /\
  map (fun s => (type s, scale s, rotation s, color s, args s))
      (drop (length (shapes (scene w))) (shapes (scene w')))
  = map (fun s => (type s, scale s, rotation s, color s, args s)) selected.
Proof.
  intros Hs Hsel selected w'.
  assert (selected <> []) as Hne.
  { intros E.
    assert (In s selected) as Hin.
    { apply filter_In. split; [apply list_elem_of_In; exact Hs|].
      apply array_includes_elem_of. exact Hsel. }
    rewrite E in Hin. exact Hin. }
  assert (clipboard (copy_selection w) = selected) as Hclip.
  { unfold copy_selection, handleCopy. cbn [clipboard]. fold selected.
    destruct selected; [congruence|reflexivity]. }
  unfold w'. rewrite paste_clipboard_nonempty by (rewrite Hclip; exact Hne).
  rewrite Hclip.
  cbn [scene viewer clipboard shapes selectedIds setSelectedIds copy_selection].
  repeat split.
  rewrite drop_app_length.
  apply list_eq. intros i. rewrite !list_lookup_fmap, list_lookup_imap.
  destruct (selected !! i) as [s0|]; [|reflexivity].
  cbn. unfold pasted. destruct (position s0) as [[x y] z]. reflexivity.
Qed.

Lemma copy_then_paste_witness :
  let w' := paste_clipboard Scenes.add_naturals Scenes.numbered
                            (copy_selection Scenes.bench0) in
  clipboard w' = [Samples.cube "b" None; Samples.cube "c" None] /\
  map id (shapes (scene w')) = [js "a"; js "b"; js "c"; js "n0"; js "n1"] /\
  map position (drop 3 (shapes (scene w')))
  = [(Number false 2 0, Samples.zero, Number false 2 0);
     (Number false 2 0, Samples.zero, Number false 2 0)].
Proof.
  intros w'.
  destruct (copy_then_paste Scenes.add_naturals Scenes.numbered Scenes.bench0
                            (Samples.cube "b" None))
    as (Hclip & _).
  - right. left.
  - left.
  - split; [exact Hclip|]. split; vm_compute; reflexivity.
Defined.

(** ** Adding and deleting *)

Lemma filter_absent_ids (ids : list jstr) (l : list Shape) :
  (forall s, s ∈ l -> id s ∉ ids) ->
  List.filter (fun s => negb (array_includes ids (id s))) l = l.
Proof.
  induction l as [|a l IH]; intros H; [reflexivity|].
  cbn [List.filter].
  destruct (array_includes ids (id a)) eqn:E.
  - apply array_includes_elem_of in E. exfalso. apply (H a); [left|exact E].
  - cbn [negb]. f_equal. apply IH. intros s Hs. apply H. right. exact Hs.
Qed.

(** X10: adding a shape whose id is not in the scene and then deleting that id
    gives back the shape list as it was. *)
Theorem add_then_delete (rendered rendered' current : Editor) (s : Shape) :
  id s ∉ map id (shapes current) ->
  shapes (handleDeleteShapes rendered' (handleAddShape rendered current s) [id s])
  = shapes current.
Proof.
  intros Hfresh. cbn [shapes handleDeleteShapes handleAddShape pushToHistory
                      setShapes setPastStates setFutureStates].
  rewrite List.filter_app, filter_absent_ids.
  - cbn [List.filter array_includes existsb].
    unfold jstr_eqb. rewrite bool_decide_eq_true_2 by reflexivity.
    cbn [orb negb]. apply app_nil_r.
  - intros s0 Hs0 Hin.
    apply list_elem_of_singleton in Hin. apply Hfresh. rewrite <- Hin.
    apply list_elem_of_fmap. exists s0. split; [reflexivity|exact Hs0].
Qed.

Lemma add_then_delete_witness :
  let current := mkEditor Samples.scene3 [] [] in
  shapes (handleDeleteShapes current
            (handleAddShape current current (Samples.cube "d" None)) [js "d"])
  = Samples.scene3.
Proof.
  intros current. apply (add_then_delete current current current).
  apply (bool_decide_unpack _). vm_compute. reflexivity.
Defined.

(** X11: the delete command does nothing at all when nothing is selected;
    otherwise it removes exactly the shapes whose id is selected, empties
    the selection, pushes the scene on the undo stack and empties the redo
    stack, and it does the latter two also when no shape carries a
    selected id, in which case the shapes stay as they are. *)
Theorem delete_selection_effect {point : Type} (w : Workbench point) :
  (selectedIds (viewer w) = [] -> delete_selection w = w) /\
  (selectedIds (viewer w) <> [] ->
   selectedIds (viewer (delete_selection w)) = [] /\
   (forall s, s ∈ shapes (scene (delete_selection w)) <->
              s ∈ shapes (scene w) /\ id s ∉ selectedIds (viewer w)) /\
   pastStates (scene (delete_selection w))
   = pastStates (scene w) ++ [shapes (scene w)] /\
   futureStates (scene (delete_selection w)) = [] /\
   ((forall s, s ∈ shapes (scene w) -> id s ∉ selectedIds (viewer w)) ->
    shapes (scene (delete_selection w)) = shapes (scene w))).
Proof.
  unfold delete_selection, handleDelete. split.
  - intros ->. reflexivity.
  - intros Hsel.
    destruct (Nat.eqb_spec (length (selectedIds (viewer w))) 0) as [E|_].
    { destruct (selectedIds (viewer w)); [congruence|discriminate]. }
    cbn [scene viewer selectedIds setSelectedIds shapes pastStates futureStates
         handleDeleteShapes pushToHistory setShapes setPastStates setFutureStates].
    split; [reflexivity|]. split; [|split; [reflexivity|split; [reflexivity|]]].
    + intros s. rewrite list_elem_of_In, filter_In, <- list_elem_of_In.
      rewrite <- array_includes_elem_of.
      destruct (array_includes (selectedIds (viewer w)) (id s)); cbn [negb];
        intuition congruence.
    + apply filter_absent_ids.
Qed.

(** ** Clicks *)

Lemma measure_step_bound {point : Type} (prev : list point) (p : point) :
  (length (if (2 <=? length prev)%nat then [p] else prev ++ [p]) <= 2)%nat /\
  (if (2 <=? length prev)%nat then [p] else prev ++ [p]) <> [].
Proof.
  destruct (Nat.leb_spec 2 (length prev)).
  - split; [simpl; lia|discriminate].
  - split; [rewrite length_app; simpl; lia|].
    destruct prev; discriminate.
Qed.

Lemma handle_pointer_invariant {point : Type} (shapes : list Shape)
      (v : Viewer point) (e : pointer_event point) :
  (length (measurePoints v) <= 2)%nat /\
  (toolMode v = select -> measurePoints v = []) ->
  (length (measurePoints (handle_pointer shapes v e)) <= 2)%nat /\
  (toolMode (handle_pointer shapes v e) = select ->
   measurePoints (handle_pointer shapes v e) = []).
Proof.
  intros [Hlen Hsel].
  destruct e as [shiftKey p shape|isDragging p| |]; cbn [handle_pointer].
  - unfold handleShapeSelect. destruct (toolMode v) eqn:Hm.
    + repeat case_match; cbn; rewrite ?Hm; auto.
    + cbn [measurePoints toolMode setMeasurePoints]. rewrite Hm.
      split; [apply measure_step_bound|discriminate].
  - unfold handleCanvasClick. destruct (toolMode v) eqn:Hm.
    + case_match; cbn; rewrite ?Hm; auto.
    + cbn [measurePoints toolMode setMeasurePoints]. rewrite Hm.
      split; [apply measure_step_bound|discriminate].
  - cbn. split; [lia|reflexivity].
  - cbn. split; [exact Hlen|discriminate].
Qed.

(** X12: whatever the user clicks (shapes, the canvas, the two buttons of the
    tool switch), starting from the first render there are never more than
    two measure points, and there is none while the select tool is active. *)
Theorem measurePoints_at_most_two {point : Type} (shapes : list Shape)
        (events : list (pointer_event point)) :
  let v := fold_left (handle_pointer shapes) events initial_viewer in
  (length (measurePoints v) <= 2)%nat /\
  (toolMode v = select -> measurePoints v = []).
Proof.
  cbv zeta.
  induction events as [|e events IH] using rev_ind.
  - split; [simpl; lia|reflexivity].
  - rewrite fold_left_app. cbn [fold_left].
    apply handle_pointer_invariant. exact IH.
Qed.


(** ** The selection *)

Lemma NoDup_filter_bool {A} (f : A -> bool) (l : list A) :
  NoDup l -> NoDup (List.filter f l).
Proof.
  induction 1 as [|a l Ha Hnd IH]; [constructor|].
  cbn [List.filter]. destruct (f a); [|exact IH].
  constructor; [|exact IH].
  intros Hin. apply Ha. apply list_elem_of_In, filter_In in Hin as [Hin _].
  apply list_elem_of_In. exact Hin.
Qed.

Lemma NoDup_map_filter_ids (f : Shape -> bool) (l : list Shape) :
  NoDup (map id l) -> NoDup (map id (List.filter f l)).
Proof.
  induction l as [|a l IH]; intros Hnd; [constructor|].
  cbn [map] in Hnd. apply NoDup_cons in Hnd as [Ha Hnd].
  cbn [List.filter]. destruct (f a); [|exact (IH Hnd)].
  cbn [map]. constructor; [|exact (IH Hnd)].
  intros Hin. apply Ha.
  apply list_elem_of_fmap in Hin as (s & E & Hs).
  apply list_elem_of_In, filter_In in Hs as [Hs _].
  apply list_elem_of_fmap. exists s. split; [exact E|].
  apply list_elem_of_In. exact Hs.
Qed.

(** X13: in a scene with distinct ids, no sequence of clicks on shapes (with
    or without shift), clicks on the canvas and uses of the tool switch
    puts an id twice into the selection. *)
Theorem selection_without_duplicates {point : Type} (shapes : list Shape)
        (events : list (pointer_event point)) :
  NoDup (map id shapes) ->
  NoDup (selectedIds (fold_left (handle_pointer shapes) events initial_viewer)).
Proof.
  intros Hnd.
  induction events as [|e events IH] using rev_ind; [constructor|].
  rewrite fold_left_app. cbn [fold_left].
  set (v := fold_left (handle_pointer shapes) events initial_viewer) in *.
  destruct e as [shiftKey p shape|isDragging p| |]; cbn [handle_pointer].
  - unfold handleShapeSelect. destruct (toolMode v); [|exact IH].
    destruct shiftKey.
    + cbn [selectedIds setSelectedIds].
      destruct (array_includes (selectedIds v) (id shape)) eqn:E.
      * apply NoDup_filter_bool. exact IH.
      * apply NoDup_app. split; [exact IH|]. split; [|apply NoDup_singleton].
        intros x Hx Hx'. apply list_elem_of_singleton in Hx'. subst x.
        apply array_includes_elem_of in Hx. congruence.
    + destruct (has_groupId shape); cbn [selectedIds setSelectedIds].
      * apply NoDup_map_filter_ids. exact Hnd.
      * apply NoDup_singleton.
  - unfold handleCanvasClick. destruct (toolMode v); [|exact IH].
    destruct isDragging; [exact IH|constructor].
  - exact IH.
  - constructor.
Qed.

(** X14: with the select tool, two shift-clicks on a shape that is not
    selected give back the viewer state as it was. *)
Theorem shift_click_twice {point : Type} (shapes : list Shape)
        (v : Viewer point) (p q : point) (shape : Shape) :
  toolMode v = select ->
  id shape ∉ selectedIds v ->
  handleShapeSelect shapes (handleShapeSelect shapes v true p shape) true q shape
  = v.
Proof.
  intros Hm Hsel. destruct v as [sel m pts]. cbn in Hm, Hsel. subst m.
  unfold handleShapeSelect, setSelectedIds.
  cbn [toolMode selectedIds measurePoints].
  destruct (array_includes sel (id shape)) eqn:E.
  { apply array_includes_elem_of in E. contradiction. }
  assert (array_includes (sel ++ [id shape]) (id shape) = true) as ->.
  { apply array_includes_elem_of. apply elem_of_app. right. left. }
  f_equal. rewrite List.filter_app. cbn [List.filter].
  unfold jstr_eqb at 2. rewrite bool_decide_eq_true_2 by reflexivity.
  cbn [negb]. rewrite app_nil_r.
  clear E. induction sel as [|a sel IH]; [reflexivity|].
  apply not_elem_of_cons in Hsel as [Ha Hsel].
  cbn [List.filter]. unfold jstr_eqb at 1.
  rewrite bool_decide_eq_false_2 by congruence. cbn [negb].
  f_equal. exact (IH Hsel).
Qed.

(** ** The derived lists *)

Lemma filter_partition_bool {A} (f : A -> bool) (l : list A) :
  Permutation (List.filter f l ++ List.filter (fun a => negb (f a)) l) l.
Proof.
  induction l as [|a l IH]; [reflexivity|].
  cbn [List.filter]. destruct (f a); cbn [negb].
  - cbn [app]. constructor. exact IH.
  - rewrite <- Permutation_middle. constructor. exact IH.
Qed.

(** X15: the lists of selected and of unselected shapes that the viewer
    renders split the visible shapes: together they are a permutation of
    them and no shape is in both; the visible shapes are all shapes, or
    those whose category is not electrical when the electrical layer is
    switched off. *)
Theorem selected_unselected_partition (showElectrical : bool)
        (shapes : list Shape) (selectedIds : list jstr) :
  let shown := visibleShapes showElectrical shapes in
  Permutation
    (selectedShapes shown selectedIds ++ unselectedShapes shown selectedIds)
    shown /\
  (forall s, s ∈ selectedShapes shown selectedIds ->
             s ∈ unselectedShapes shown selectedIds -> False) /\
  (forall s, s ∈ shown <->
             s ∈ shapes /\ (showElectrical = true \/ category s <> Some electrical)).
Proof.
  intros shown. split; [|split].
  - apply filter_partition_bool.
  - intros s H1 H2.
    apply list_elem_of_In, filter_In in H1 as [_ H1].
    apply list_elem_of_In, filter_In in H2 as [_ H2].
    rewrite H1 in H2. discriminate.
  - intros s. unfold shown, visibleShapes.
    rewrite list_elem_of_In, filter_In, <- list_elem_of_In.
    unfold is_electrical.
    destruct showElectrical; cbn [orb].
    + intuition.
    + destruct (category s) as [[]|]; cbn [negb]; intuition congruence.
Qed.



(** ** Projects *)

Lemma saveCurrentProject_projects (rendered current : AppState) (now : nat -> N)
      updatedShapes updatedLegend updatedHistory updatedMessages c cid :
  currentProjectId rendered = Some (c :: cid) ->
  projects (saveCurrentProject rendered current now updatedShapes updatedLegend
                               updatedHistory updatedMessages)
  = imap (fun i p =>
            if jstr_eqb (project_id p) (c :: cid)
            then saved p updatedShapes updatedLegend updatedHistory
                       updatedMessages (now i)
            else p)
         (projects current).
Proof. intros H. unfold saveCurrentProject. rewrite H. reflexivity. Qed.

(** X17: leaving the workspace for the dashboard and opening the same project
    again gives back the shapes, the legend, the prompt history and the
    chat of the moment of leaving, with both history stacks empty. *)
Theorem reopen_after_back (w : AppState) (now : nat -> N) (is_admin : bool)
        (c : N) (cid : jstr) (p : ProjectData) :
  currentProjectId w = Some (c :: cid) ->
  p ∈ projects (handleBackToDashboard w w now is_admin) ->
  project_id p = c :: cid ->
  let reopened := handleOpenProject (handleBackToDashboard w w now is_admin) p in
  shapes (editor reopened) = shapes (editor w) /\
  legend reopened = legend w /\
  prompts reopened = prompts w /\
  chat reopened = chat w /\
  currentProjectId reopened = currentProjectId w /\
  mode reopened = WORKSPACE /\
  pastStates (editor reopened) = [] /\
  futureStates (editor reopened) = [].
Proof.
  intros Hcur Hp Hid reopened.
  unfold handleBackToDashboard in Hp. cbn [projects] in Hp.
  rewrite (saveCurrentProject_projects _ _ _ _ _ _ _ c cid Hcur) in Hp.
  apply elem_of_lookup_imap in Hp as (i & p0 & Ep & _).
  unfold jstr_eqb in Ep.
  destruct (decide (project_id p0 = c :: cid)) as [E|E].
  - rewrite bool_decide_eq_true_2 in Ep by assumption.
    unfold reopened, handleOpenProject. subst p.
    cbn. rewrite Hcur, E. repeat split.
  - rewrite bool_decide_eq_false_2 in Ep by assumption. congruence.
Qed.


(** ** The error envelope, blank answers and repaired answers *)

Section Envelope.

Lemma is_prefix_app (t s : jstr) : is_prefix t (t ++ s) = true.
Proof.
  induction t as [|c t IH]; [reflexivity|].
  cbn [app is_prefix]. rewrite N.eqb_refl. exact IH.
Qed.

Lemma includes_app_r (t a s : jstr) :
  includes t s = true -> includes t (a ++ s) = true.
Proof.
  intros H. induction a as [|c a IH]; [exact H|].
  cbn [app includes]. rewrite IH. apply orb_true_r.
Qed.

Lemma includes_infix (t a b : jstr) : includes t (a ++ t ++ b) = true.
Proof.
  apply includes_app_r. destruct (t ++ b) eqn:E; cbn [includes];
    rewrite <- E, is_prefix_app; reflexivity.
Qed.

Lemma is_prefix_app_l (t p q : jstr) :
  is_prefix t p = true -> is_prefix t (p ++ q) = true.
Proof.
  revert p. induction t as [|c t IH]; intros p H; [reflexivity|].
  destruct p as [|d p]; [discriminate|].
  cbn [app is_prefix] in *. apply andb_true_iff in H as [-> H].
  exact (IH p H).
Qed.

Lemma includes_app_l (t p q : jstr) :
  includes t p = true -> includes t (p ++ q) = true.
Proof.
  induction p as [|d p IH]; intros H.
  - cbn [includes] in H. rewrite orb_false_r in H.
    destruct t; [|discriminate]. destruct q; reflexivity.
  - cbn [app includes] in *. apply orb_true_iff in H as [H|H].
    + pose proof (is_prefix_app_l _ (d :: p) q H) as H'.
      cbn [app] in H'. rewrite H'. reflexivity.
    + rewrite (IH H). apply orb_true_r.
Qed.

End Envelope.

(** X19: when the call is rejected the function returns the envelope that has
    only a text, and this text quotes the message of the exception in full
    after the words Technical Error; without an API key (unset or empty)
    the envelope is the one of the message that the key is not set,
    whatever the call would give. *)
Theorem error_envelope_quotes_message (k : N) (key : jstr) (e : exn)
        (generateContent : result (option jstr)) :
  sendMessageToGemini (Some (k :: key)) (Throw e) = Ok (error_response e) /\
  sendMessageToGemini None generateContent
  = Ok (error_response (Error no_api_key_message)) /\
  sendMessageToGemini (Some []) generateContent
  = Ok (error_response (Error no_api_key_message)) /\
  error_response e = JObject [(js "text", JString (error_text e))] /\
  includes (js "Technical Error: " ++ message e) (error_text e) = true.
Proof.
  do 4 (split; [reflexivity|]).
  unfold error_text.
  set (head := js "I encountered an error processing the design. The model response might have been too large or complex. ").
  set (tail := js "Try asking for a smaller update.").
  replace (head ++ [10; 10] ++ js "Technical Error: " ++ message e
           ++ [10; 10] ++ tail)
    with ((head ++ [10; 10]) ++ (js "Technical Error: " ++ message e)
          ++ ([10; 10] ++ tail))
    by (rewrite <- !app_assoc; reflexivity).
  apply includes_infix.
Qed.

(** ** Blank answers *)

Lemma blank_no_fence (raw : jstr) :
  forallb is_js_space raw = true -> includes (js "```") raw = false.
Proof.
  induction raw as [|c raw IH]; intros H; [reflexivity|].
  cbn [forallb] in H. apply andb_true_iff in H as [Hc H].
  cbn [includes]. rewrite (IH H), orb_false_r.
  change (js "```") with [96; 96; 96]. cbn [is_prefix].
  rewrite N.eqb_sym, (blank_neq c 96 Hc eq_refl). reflexivity.
Qed.

Lemma trimStart_blank (raw : jstr) :
  forallb is_js_space raw = true -> trimStart raw = [].
Proof.
  induction raw as [|c raw IH]; intros H; [reflexivity|].
  cbn [forallb] in H. apply andb_true_iff in H as [Hc H].
  cbn [trimStart]. rewrite Hc. exact (IH H).
Qed.

(** X20: an answer that is not empty and consists of white space only passes
    the guard and ends in the fallback envelope, with an empty
    designUpdate (the empty answer ends in the error envelope instead). *)
Theorem blank_answer_fallback (k : N) (key raw : jstr) :
  raw <> [] ->
  forallb is_js_space raw = true ->
  parse_model_output (k :: key) raw = Ok fallback_response.
Proof.
  intros Hne Hblank.
  rewrite parse_model_output_nonempty by assumption.
  destruct raw as [|c raw]; [congruence|].
  rewrite recover_tiers. unfold tier1, tier2, tier3.
  rewrite strip_markup_no_fence by (apply blank_no_fence; exact Hblank).
  unfold trim. rewrite trimStart_blank by exact Hblank.
  vm_compute. reflexivity.
Qed.

Lemma blank_answer_fallback_witness :
  parse_model_output Samples.api_key [32; 10] = Ok fallback_response /\
  parse_model_output Samples.api_key [] <> Ok fallback_response.
Proof.
  split.
  - apply (blank_answer_fallback 107 (js "ey") [32; 10]); [discriminate|reflexivity].
  - vm_compute. discriminate.
Defined.

(** ** Answers that only the repairs of tier 3 or the fallback serve *)

(** X21: whenever neither the cleaned answer nor its syntax repair parses, the
    function returns an object with a non-empty text. *)
Theorem repaired_answer_has_text (k : N) (key raw : jstr) :
  raw <> [] ->
  throws (tier1 raw) ->
  throws (tier2 raw) ->
  exists props,
    parse_model_output (k :: key) raw = Ok (JObject props) /\
    truthy (get_prop props key_text) = true.
Proof.
  intros Hne [e1 H1] [e2 H2].
  rewrite parse_model_output_nonempty by assumption.
  destruct raw as [|c raw]; [congruence|].
  rewrite recover_tiers, H1, H2.
  destruct (tier3 (c :: raw)) as [[v|]|e3] eqn:H3.
  - unfold tier3 in H3.
    destruct (truncation_repair _) as [[v'|]|e'] eqn:Ht; try discriminate.
    injection H3 as <-.
    destruct (truncation_repair_object _ _ Ht) as (props & -> & Htext).
    exists props. split; [reflexivity|exact Htext].
  - eexists. split; [reflexivity|]. vm_compute. reflexivity.
  - eexists. split; [reflexivity|]. vm_compute. reflexivity.
Qed.

Lemma repaired_answer_has_text_witness :
  exists props,
    parse_model_output Samples.api_key Samples.answer_truncated = Ok (JObject props) /\
    truthy (get_prop props key_text) = true.
Proof.
  apply (repaired_answer_has_text 107 (js "ey") Samples.answer_truncated).
  - discriminate.
  - eexists. vm_compute. reflexivity.
  - eexists. vm_compute. reflexivity.
Defined.

(** ** Code fences *)

Section FenceRemoval.

(** The answer of [recover] depends on the cleaned text alone. *)
Lemma recover_strip_markup (raw raw' : jstr) :
  raw <> [] -> raw' <> [] ->
  strip_markup raw = strip_markup raw' ->
  recover (Some raw) = recover (Some raw').
Proof.
  intros H H' E.
  destruct raw as [|c raw]; [congruence|].
  destruct raw' as [|c' raw']; [congruence|].
  rewrite !recover_tiers. unfold tier1, tier2, tier3. rewrite E. reflexivity.
Qed.

Lemma not_backtick_no_prefix (c : N) (s : jstr) :
  c <> 96 -> is_prefix (js "```") (c :: s) = false.
Proof.
  intros Hc. change (js "```") with [96; 96; 96]. cbn [is_prefix].
  destruct (N.eqb_spec 96 c); [congruence|reflexivity].
Qed.

(** Neither pattern matches in a text without backticks that is followed
    by the closing fence; the closing fence itself is what [/```/g]
    removes. *)
Lemma replace_fence_json_closing (body : jstr) :
  96 ∉ body ->
  replace_all true re_fence_json [] (body ++ js "```") = body ++ js "```".
Proof.
  unfold replace_all. induction body as [|c body IH]; intros H.
  - vm_compute. reflexivity.
  - apply not_elem_of_cons in H as [Hc H].
    cbn [app replace_from].
    rewrite exec_fence_none by (auto using not_backtick_no_prefix).
    rewrite (IH H). reflexivity.
Qed.

Lemma replace_fence_closing (body : jstr) :
  96 ∉ body ->
  replace_all false re_fence [] (body ++ js "```") = body.
Proof.
  unfold replace_all. induction body as [|c body IH]; intros H.
  - vm_compute. reflexivity.
  - apply not_elem_of_cons in H as [Hc H].
    cbn [app replace_from].
    rewrite exec_fence_none by (auto using not_backtick_no_prefix).
    rewrite (IH H). reflexivity.
Qed.

(** The opening fence in any letter case is what [/```json/gi] removes. *)
Lemma replace_fence_json_opening (fence rest : jstr) :
  map canonicalize fence = map canonicalize (js "```json") ->
  replace_all true re_fence_json [] (fence ++ rest)
  = replace_all true re_fence_json [] rest.
Proof.
  intros H.
  destruct fence as [|c1 [|c2 [|c3 [|c4 [|c5 [|c6 [|c7 [|c8 fence]]]]]]]];
    try discriminate H.
  injection H as H1 H2 H3 H4 H5 H6 H7.
  unfold replace_all. cbn [app replace_from].
  assert (exec_here true re_fence_json
            (c1 :: c2 :: c3 :: c4 :: c5 :: c6 :: c7 :: rest) = Some (7%nat, []))
    as ->.
  { unfold exec_here, re_fence_json.
    change (js "```json") with [96; 96; 96; 106; 115; 111; 110].
    cbn [RString rmatch]. unfold char_matches.
    rewrite H1, H2, H3, H4, H5, H6, H7. cbn [canonicalize].
    vm_compute N.eqb. cbn match.
    cbn [length]. f_equal. f_equal. lia. }
  reflexivity.
Qed.

End FenceRemoval.

(** X22: an answer wrapped in a code fence - three backticks and the word json
    in any letter case before it, three backticks after it - is treated
    like the answer without the fence, provided the answer itself is not
    empty and has no backtick. *)
Theorem fenced_answer_as_bare (k : N) (key fence body : jstr) :
  map canonicalize fence = map canonicalize (js "```json") ->
  96 ∉ body ->
  body <> [] ->
  strip_markup (fence ++ body ++ js "```") = trim body /\
  parse_model_output (k :: key) (fence ++ body ++ js "```")
  = parse_model_output (k :: key) body.
Proof.
  intros Hfence Hbody Hne.
  assert (strip_markup (fence ++ body ++ js "```") = trim body) as Hstrip.
  { unfold strip_markup.
    rewrite replace_fence_json_opening by assumption.
    rewrite replace_fence_json_closing by assumption.
    rewrite replace_fence_closing by assumption. reflexivity. }
  split; [exact Hstrip|].
  assert (fence ++ body ++ js "```" <> []) as Hne'.
  { destruct fence; [discriminate Hfence|discriminate]. }
  rewrite (parse_model_output_nonempty k key _ Hne').
  rewrite (parse_model_output_nonempty k key _ Hne).
  apply recover_strip_markup; try assumption.
  rewrite Hstrip. symmetry. apply strip_markup_no_fence.
  clear Hne Hne' Hstrip. induction body as [|c body IH]; [reflexivity|].
  apply not_elem_of_cons in Hbody as [Hc Hbody].
  cbn [includes]. rewrite not_backtick_no_prefix by congruence.
  exact (IH Hbody).
Qed.

Lemma fenced_answer_as_bare_witness :
  parse_model_output Samples.api_key
    (js "```JSON" ++ ([10] ++ Samples.answer_complete ++ [10]) ++ js "```")
  = parse_model_output Samples.api_key ([10] ++ Samples.answer_complete ++ [10]).
Proof.
  apply (fenced_answer_as_bare 107 (js "ey") (js "```JSON")
                               ([10] ++ Samples.answer_complete ++ [10])).
  - reflexivity.
  - apply (bool_decide_unpack _). vm_compute. reflexivity.
  - discriminate.
Defined.

Section NoFenceLeft.

Lemma replace_fence_match (s : jstr) :
  replace_all false re_fence [] (96 :: 96 :: 96 :: s)
  = replace_all false re_fence [] s.
Proof.
  unfold replace_all. cbn [replace_from].
  assert (exec_here false re_fence (96 :: 96 :: 96 :: s) = Some (3%nat, []))
    as ->; [|reflexivity].
  unfold exec_here, re_fence. change (js "```") with [96; 96; 96].
  cbn [RString rmatch char_matches]. vm_compute N.eqb. cbn match.
  cbn [length]. f_equal. f_equal. lia.
Qed.

Lemma replace_fence_skip (c : N) (s : jstr) :
  is_prefix (js "```") (c :: s) = false ->
  replace_all false re_fence [] (c :: s)
  = c :: replace_all false re_fence [] s.
Proof.
  intros H. unfold replace_all. cbn [replace_from].
  rewrite exec_fence_none by auto. reflexivity.
Qed.

Lemma replace_fence_two (s : jstr) :
  is_prefix [96; 96] s = false ->
  is_prefix [96; 96] (replace_all false re_fence [] s) = false.
Proof.
  intros H. destruct s as [|c s]; [reflexivity|].
  destruct (N.eqb_spec 96 c) as [<-|Hc].
  - destruct s as [|d s]; [reflexivity|].
    cbn [is_prefix] in H. rewrite N.eqb_refl in H. cbn [andb] in H.
    rewrite andb_true_r in H.
    rewrite replace_fence_skip
      by (change (js "```") with [96; 96; 96]; cbn [is_prefix]; rewrite H;
          reflexivity).
    rewrite replace_fence_skip
      by (change (js "```") with [96; 96; 96]; cbn [is_prefix]; rewrite H;
          reflexivity).
    cbn [is_prefix]. rewrite H. reflexivity.
  - rewrite replace_fence_skip by (apply not_backtick_no_prefix; congruence).
    cbn [is_prefix]. destruct (N.eqb_spec 96 c); [congruence|reflexivity].
Qed.

Lemma replace_fence_no_fence (s : jstr) :
  includes (js "```") (replace_all false re_fence [] s) = false.
Proof.
  remember (length s) as n eqn:Hn. revert s Hn.
  induction n as [n IH] using lt_wf_ind. intros s Hn.
  destruct s as [|c s]; [reflexivity|].
  destruct (is_prefix (js "```") (c :: s)) eqn:Hp.
  - change (js "```") with [96; 96; 96] in Hp.
    destruct s as [|c2 [|c3 s]]; cbn [is_prefix] in Hp;
      try (rewrite ?andb_false_r in Hp; discriminate Hp).
    apply andb_true_iff in Hp as [H1 Hp]. apply andb_true_iff in Hp as [H2 Hp].
    apply andb_true_iff in Hp as [H3 _].
    apply N.eqb_eq in H1, H2, H3. subst c c2 c3.
    rewrite replace_fence_match.
    apply (IH (length s)); [subst n; cbn [length]; lia|reflexivity].
  - rewrite replace_fence_skip by exact Hp.
    cbn [includes].
    rewrite (IH (length s)) by (subst n; cbn [length]; lia || reflexivity).
    rewrite orb_false_r.
    change (js "```") with [96; 96; 96] in *. cbn [is_prefix] in *.
    destruct (96 =? c); [|reflexivity]. cbn [andb] in *.
    change ((96 =? ?a) && ((96 =? ?b) && true)) with (is_prefix [96; 96] (a :: b :: [])) in *.
    apply replace_fence_two. exact Hp.
Qed.

Lemma trimStart_suffix (s : jstr) : exists w, s = w ++ trimStart s.
Proof.
  induction s as [|c s [w IH]]; [exists []; reflexivity|].
  cbn [trimStart]. destruct (is_js_space c).
  - exists (c :: w). cbn [app]. f_equal. exact IH.
  - exists []. reflexivity.
Qed.

Lemma trimEnd_prefix (s : jstr) : exists w, s = trimEnd s ++ w.
Proof.
  unfold trimEnd. destruct (trimStart_suffix (rev s)) as [w Hw].
  exists (rev w). rewrite <- rev_app_distr, <- Hw, rev_involutive. reflexivity.
Qed.

Lemma includes_trim (t s : jstr) :
  includes t s = false -> includes t (trim s) = false.
Proof.
  intros H. destruct (includes t (trim s)) eqn:E; [|reflexivity].
  unfold trim in E.
  destruct (trimEnd_prefix (trimStart s)) as [w Hw].
  destruct (trimStart_suffix s) as [w' Hw'].
  apply (includes_app_l _ _ w) in E. rewrite <- Hw in E.
  apply (includes_app_r _ w') in E. rewrite <- Hw' in E.
  congruence.
Qed.

Lemma trimStart_head (s : jstr) (c : N) (t : jstr) :
  trimStart s = c :: t -> is_js_space c = false.
Proof.
  induction s as [|d s IH]; [discriminate|].
  cbn [trimStart]. destruct (is_js_space d) eqn:E; [exact IH|].
  intros H. injection H as <- _. exact E.
Qed.

Lemma trimStart_idempotent (s : jstr) : trimStart (trimStart s) = trimStart s.
Proof.
  destruct (trimStart s) as [|c t] eqn:E; [reflexivity|].
  cbn [trimStart]. rewrite (trimStart_head s c t E). reflexivity.
Qed.

Lemma trim_idempotent (s : jstr) : trim (trim s) = trim s.
Proof.
  unfold trim. set (u := trimStart s).
  assert (trimStart (trimEnd u) = trimEnd u) as ->.
  { destruct (trimEnd_prefix u) as [w Hw].
    destruct (trimEnd u) as [|c y] eqn:Ey; [reflexivity|].
    cbn [trimStart].
    assert (is_js_space c = false) as ->; [|reflexivity].
    apply (trimStart_head s c (y ++ w)). fold u. rewrite Hw at 1. reflexivity. }
  unfold trimEnd. rewrite rev_involutive, trimStart_idempotent. reflexivity.
Qed.

End NoFenceLeft.

(** X23: the cleaned text never contains three backticks in a row, and
    cleaning it again changes nothing. *)
Theorem strip_markup_leaves_no_fence (s : jstr) :
  includes (js "```") (strip_markup s) = false /\
  strip_markup (strip_markup s) = strip_markup s.
Proof.
  assert (includes (js "```") (strip_markup s) = false) as H.
  { unfold strip_markup. apply includes_trim. apply replace_fence_no_fence. }
  split; [exact H|].
  rewrite (strip_markup_no_fence _ H).
  unfold strip_markup. apply trim_idempotent.
Qed.

(** ** Further instances *)

Lemma group_then_click_witness :
  let st := mkEditor Scenes.loose3 [] [] in
  let grouped := perform_on st st (Group [js "b"; js "c"] (js "17")) in
  selectedIds (handleShapeSelect (shapes grouped) (@initial_viewer unit) false tt
                                 (Samples.cube "c" (Some (js "group-17"))))
  = [js "b"; js "c"].
Proof.
  intros st grouped.
  apply (group_then_click st [js "b"; js "c"] (js "17") initial_viewer tt
                          (Samples.cube "c" (Some (js "group-17")))).
  - apply (bool_decide_unpack _). vm_compute. reflexivity.
  - simpl. lia.
  - intros s Hs. simpl in Hs.
    repeat (apply elem_of_cons in Hs as [->|Hs]); try discriminate.
    inversion Hs.
  - reflexivity.
  - vm_compute. right. right. left.
  - right. left.
Defined.

Lemma preset_last_wins_witness :
  shapes (scene (choosePreset matte_white (choosePreset neon_blue Scenes.bench0)))
  = shapes (scene (choosePreset matte_white Scenes.bench0)) /\
  map emissive (shapes (scene (choosePreset neon_blue Scenes.bench0)))
  = [None; Some (js "#3b82f6"); Some (js "#3b82f6")] /\
  map emissive (shapes (scene (choosePreset matte_white
                                            (choosePreset neon_blue Scenes.bench0))))
  = [None; None; None].
Proof.
  split; [|split; vm_compute; reflexivity].
  apply (preset_last_wins neon_blue matte_white Scenes.bench0).
  apply (bool_decide_unpack _). vm_compute. reflexivity.
Defined.

Lemma paste_is_one_undo_witness :
  let w' := paste_clipboard Scenes.add_naturals Scenes.numbered Scenes.bench0 in
  map id (shapes (scene w')) = [js "a"; js "b"; js "c"; js "n0"; js "n1"] /\
  selectedIds (viewer w') = [js "n0"; js "n1"] /\
  shapes (undo_key (scene w')) = Scenes.loose3 /\
  shapes (undo_key (undo_key (scene w'))) = Scenes.loose3.
Proof.
  intros w'.
  destruct (paste_is_one_undo Scenes.add_naturals Scenes.numbered Scenes.bench0)
    as (_ & _ & _ & Hsel & Hundo); [discriminate|].
  split; [vm_compute; reflexivity|]. split; [exact Hsel|].
  split; [apply (Hundo 1%nat)|apply (Hundo 2%nat)]; simpl; lia.
Defined.

Lemma selection_without_duplicates_witness :
  NoDup (selectedIds
           (fold_left (handle_pointer Scenes.loose3)
                      [ShapeClicked false tt (Samples.cube "a" None);
                       ShapeClicked true tt (Samples.cube "b" None);
                       ShapeClicked true tt (Samples.cube "a" None);
                       ShapeClicked true tt (Samples.cube "a" None)]
                      initial_viewer)).
Proof.
  apply selection_without_duplicates.
  apply (bool_decide_unpack _). vm_compute. reflexivity.
Defined.

Lemma shift_click_twice_witness :
  handleShapeSelect Scenes.loose3
    (handleShapeSelect Scenes.loose3 Samples.viewer0 true tt (Samples.cube "a" None))
    true tt (Samples.cube "a" None)
  = Samples.viewer0.
Proof.
  apply shift_click_twice; [reflexivity|].
  apply (bool_decide_unpack _). vm_compute. reflexivity.
Defined.

Lemma reopen_after_back_witness :
  let left := handleBackToDashboard Scenes.app0 Scenes.app0 (fun _ => 9) false in
  mode left = DASHBOARD /\
  currentProjectId left = None /\
  exists p,
    projects left !! 1%nat = Some p /\
    shapes (editor (handleOpenProject left p)) = Scenes.loose3 /\
    pastStates (editor (handleOpenProject left p)) = [] /\
    pastStates (editor Scenes.app0) <> [].
Proof.
  intros left. split; [reflexivity|]. split; [reflexivity|].
  eexists. split; [vm_compute; reflexivity|].
  match goal with
  | |- context [handleOpenProject left ?p] =>
      destruct (reopen_after_back Scenes.app0 (fun _ => 9) false 112 (js "roj-1") p)
        as (Hs & _ & _ & _ & _ & _ & Hp & _)
  end.
  - reflexivity.
  - vm_compute. right. left.
  - reflexivity.
  - split; [exact Hs|]. split; [exact Hp|]. discriminate.
Defined.

